(** * Ballancier: the physics step and its collision detector

    A shallow embedding of [closestPointOnSegment] and
    [checkCircleCollisions] (collision.mjs) and of [step] (the physics
    integrator), followed by the properties the specification states
    about them.

    Numbers.  The JavaScript code computes on IEEE doubles.  The
    properties below are geometric, so a finite JavaScript number is
    read as the real number it stands for and [+ - * / sqrt] as the
    exact operations: rounding, overflow and NaN/Infinity *inputs* are
    outside the model.  Every division of the source is guarded by a
    test of its divisor against zero, with one exception, the
    direction [vx / speed] at the end of [step]; that quotient is
    modelled by [js_div], which keeps the non-finite outcome apart. *)

From Stdlib Require Import Reals Lra List Bool.
Import ListNotations.

Open Scope R_scope.

(* ================================================================== *)
(** ** JavaScript number idioms *)

Module Js.

(** [Math.hypot(a, b)]. *)
Definition hypot (a b : R) : R := sqrt (a * a + b * b).

(** [a || d] on numbers: [0] is the only falsy finite number. *)
Definition or_else (a d : R) : R := if Req_dec_T a 0 then d else a.

(** [v ?? d]: the default replaces only an absent value. *)
Definition nullish {A : Type} (v : option A) (d : A) : A :=
  match v with Some a => a | None => d end.

(** [Math.max(a, b)] and [Math.min(a, b)] on finite numbers. *)
Definition max (a b : R) : R := Rmax a b.
Definition min (a b : R) : R := Rmin a b.

(** Comparisons as booleans, for conditions joined by [&&]. *)
Definition ltb (a b : R) : bool := if Rlt_dec a b then true else false.
Definition leb (a b : R) : bool := if Rle_dec a b then true else false.
Definition gtb (a b : R) : bool := ltb b a.
Definition geb (a b : R) : bool := leb b a.

(** The outcome of a division whose divisor is not tested first:
    a finite quotient, or a non-finite value (NaN, +-Infinity). *)
Inductive quot : Type :=
| Finite (v : R)
| NonFinite.

Definition js_div (a b : R) : quot :=
  if Req_dec_T b 0 then NonFinite else Finite (a / b).

End Js.

(* ================================================================== *)
(** ** Data model *)

(** The two obstacle shapes of the detector; any other [type] string is
    skipped by it.  [thickness] may be absent. *)
Inductive Shape : Type :=
| Segment (x1 y1 x2 y2 : R) (thickness : option R)
| Rect (x y w h : R)
| OtherShape.

(** An obstacle object: its shape and the rotation fields the integrator
    reads from [h.source]. *)
Record Obstacle : Type := mkObstacle {
  shape : Shape;
  angularVelocity : option R;
  centerX : R;
  centerY : R
}.

(** The object returned by [closestPointOnSegment], also used for the
    rectangle's [{x, y}] (which has no [t]). *)
Record ClosestPoint : Type := mkCP {
  cp_x : R;
  cp_y : R;
  cp_t : option R
}.

Inductive HitKind : Type := KSegment | KRect.

(** A hit record pushed by the detector. *)
Record Hit : Type := mkHit {
  h_source : Obstacle;
  h_kind : HitKind;
  h_cp : ClosestPoint;
  h_dist : R;
  h_nx : R;
  h_ny : R;
  h_penetration : R
}.

(* ================================================================== *)
(** ** collision.mjs *)

Definition closestPointOnSegment (px py x1 y1 x2 y2 : R) : ClosestPoint :=
  let vx := x2 - x1 in
  let vy := y2 - y1 in
  let denom := vx * vx + vy * vy in
  if Req_dec_T denom 0 then mkCP x1 y1 (Some 0)
  else
    let t := ((px - x1) * vx + (py - y1) * vy) / denom in
    let t := Js.max 0 (Js.min 1 t) in
    mkCP (x1 + vx * t) (y1 + vy * t) (Some t).

(** The body of the detector's loop: the hit pushed for obstacle [o],
    if any. *)
Definition collide (cx cy cr : R) (o : Obstacle) : option Hit :=
  match shape o with
  | Segment x1 y1 x2 y2 thickness =>
      let cp := closestPointOnSegment cx cy x1 y1 x2 y2 in
      let dxp := cx - cp_x cp in
      let dyp := cy - cp_y cp in
      let dist2 := dxp * dxp + dyp * dyp in
      let dist := sqrt dist2 in
      let rEff := cr + Js.or_else (Js.nullish thickness 0) 0 / 2 in
      if Rle_dec dist2 (rEff * rEff) then
        let nx := if Req_dec_T dist 0 then 0 else dxp / dist in
        let ny := if Req_dec_T dist 0 then 0 else dyp / dist in
        Some (mkHit o KSegment cp dist nx ny (rEff - dist))
      else None
  | Rect x y w h =>
      let closestX := Js.max x (Js.min cx (x + w)) in
      let closestY := Js.max y (Js.min cy (y + h)) in
      let dx := cx - closestX in
      let dy := cy - closestY in
      let d2 := dx * dx + dy * dy in
      if Rle_dec d2 (cr * cr) then
        let dist := Js.or_else (sqrt d2) 0 in
        let nx := if Req_dec_T dist 0 then 0 else dx / dist in
        let ny := if Req_dec_T dist 0 then 0 else dy / dist in
        Some (mkHit o KRect (mkCP closestX closestY None) dist nx ny (cr - dist))
      else None
  | OtherShape => None
  end.

(** [for (const o of obstacles) ...; return hits]. *)
Fixpoint checkCircleCollisions (cx cy cr : R) (obstacles : list Obstacle)
  : list Hit :=
  match obstacles with
  | [] => []
  | o :: rest =>
      match collide cx cy cr o with
      | Some h => h :: checkCircleCollisions cx cy cr rest
      | None => checkCircleCollisions cx cy cr rest
      end
  end.

(* ================================================================== *)
(** ** The physics integrator *)

Record Bounds : Type := mkBounds { width : R; height : R }.

(** [opts]: every field may be absent. *)
Record Opts : Type := mkOpts {
  o_gravity : option R;
  o_friction : option R;
  o_bounds : option Bounds;
  o_stopThreshold : option R;
  o_restitution : option R;
  o_tangentialFriction : option R;
  o_tangentialRetention : option R
}.

(** [state]: [vx] and [vy] count only when they are numbers. *)
Record State : Type := mkState {
  s_x : R;
  s_y : R;
  s_dx : R;
  s_dy : R;
  s_speed : R;
  s_r : R;
  s_vx : option R;
  s_vy : option R
}.

(** The object returned by [step]. *)
Record Result : Type := mkResult {
  r_x : R;
  r_y : R;
  r_dx : Js.quot;
  r_dy : Js.quot;
  r_speed : R;
  r_vx : R;
  r_vy : R;
  r_contact : bool
}.

Definition ENERGY_DAMPING_THRESHOLD : R := - 0.10.

(** The locals of [step] before detection (lines 12-43). [f_dx] and
    [f_dy] are the locals [dx], [dy] after the bounds handling. *)
Record Frame : Type := mkFrame {
  f_gravity : R;
  f_stopThreshold : R;
  f_restitution : R;
  f_tangentialFriction : R;
  f_tangentialRetention : R;
  f_r : R;
  f_dx : R;
  f_dy : R;
  f_vx0 : R;
  f_vy0 : R;
  f_vxFor : R;
  f_vyFor : R;
  f_newX : R;
  f_newY : R
}.

Definition frame (state : State) (opts : Opts) : Frame :=
  let gravity := Js.nullish (o_gravity opts) 0.2 in
  let friction := Js.nullish (o_friction opts) 0.995 in
  let bounds := Js.nullish (o_bounds opts) (mkBounds 0 0) in
  let stopThreshold := Js.nullish (o_stopThreshold opts) 0.02 in
  let restitution := Js.nullish (o_restitution opts) 0.3 in
  let tangentialFriction := Js.nullish (o_tangentialFriction opts) friction in
  let tangentialRetention := Js.nullish (o_tangentialRetention opts) 0.6 in
  let x := s_x state in
  let y := s_y state in
  let dx := s_dx state in
  let dy := s_dy state in
  let speed := s_speed state in
  let r := s_r state in
  let vx := Js.nullish (s_vx state) (dx * speed) in
  let vy := Js.nullish (s_vy state) (dy * speed) in
  (* simple bounds handling *)
  let dx := if Js.geb x (width bounds - r) && Js.gtb dx 0 then - Rabs dx else dx in
  let dx := if Js.leb x r && Js.ltb dx 0 then Rabs dx else dx in
  let dy := if Js.geb y (height bounds - r) && Js.gtb dy 0 then - Rabs dy else dy in
  let dy := if Js.leb y r && Js.ltb dy 0 then Rabs dy else dy in
  let vx0 := vx in
  let vy0 := vy in
  let vxFor := vx0 in
  let vyFor := vy0 + gravity in
  let newX := x + vxFor in
  let newY := y + vyFor in
  mkFrame gravity stopThreshold restitution tangentialFriction
          tangentialRetention r dx dy vx0 vy0 vxFor vyFor newX newY.

(** [hits.sort(cmp)]: the sort is stable, so with a comparator that is
    a difference of keys the result is that of a stable insertion sort;
    [a] goes after [b] when [cmp(a, b) > 0]. *)
Fixpoint insert_sorted (cmp : Hit -> Hit -> R) (a : Hit) (l : list Hit)
  : list Hit :=
  match l with
  | [] => [a]
  | b :: rest =>
      if Rlt_dec 0 (cmp a b) then b :: insert_sorted cmp a rest
      else a :: b :: rest
  end.

Definition sort (cmp : Hit -> Hit -> R) (l : list Hit) : list Hit :=
  fold_right (insert_sorted cmp) [] l.

(** [(a, b) => (b.penetration || 0) - (a.penetration || 0)]. *)
Definition by_penetration_desc (a b : Hit) : R :=
  Js.or_else (h_penetration b) 0 - Js.or_else (h_penetration a) 0.

(** [hits.type]: [hits] is an Array and has no [type] property. *)
Definition hits_type (hits : list Hit) : option HitKind := None.

(** The obstacle's velocity at the contact point (lines 74-88). *)
Definition obstacleVelocity (o : Obstacle) (cp : ClosestPoint) : R * R :=
  match angularVelocity o with
  | Some omega =>
      if Req_dec_T omega 0 then (0, 0)
      else
        let dx_center := cp_x cp - centerX o in
        let dy_center := cp_y cp - centerY o in
        (- omega * dy_center, omega * dx_center)
  | None => (0, 0)
  end.

(** The locals of the contact branch (lines 57-171). *)
Record ContactLocals : Type := mkContactLocals {
  c_nx : R;
  c_ny : R;
  c_pen : R;
  c_tx : R;
  c_ty : R;
  c_obsVx : R;
  c_obsVy : R;
  c_new_vn_scalar : R;
  c_vAlong : R;
  c_outVx : R;
  c_outVy : R
}.

Definition resolveContact (f : Frame) (h : Hit) : ContactLocals :=
  let gravity := f_gravity f in
  let restitution := f_restitution f in
  let tangentialFriction := f_tangentialFriction f in
  let tangentialRetention := f_tangentialRetention f in
  let vx0 := f_vx0 f in
  let vy0 := f_vy0 f in
  let vxFor := f_vxFor f in
  let vyFor := f_vyFor f in
  let nx := h_nx h in
  let ny := h_ny h in
  let pen := Js.max 0 (Js.or_else (h_penetration h) 0) in
  (* tangent vector (unit) *)
  let tx := - ny in
  let ty := nx in
  let tlen := Js.or_else (Js.hypot tx ty) 1 in
  let tx := tx / tlen in
  let ty := ty / tlen in
  (* obstacle velocity at the contact point *)
  let o := h_source h in
  let '(obsVx, obsVy) := obstacleVelocity o (h_cp h) in
  let v_rel_x := vx0 - obsVx in
  let v_rel_y := vy0 - obsVy in
  let vDotN_rel := v_rel_x * nx + v_rel_y * ny in
  let vObsDotN := obsVx * nx + obsVy * ny in
  let vDotN_gravity := vxFor * nx + vyFor * ny in
  let new_vn_scalar :=
    if Rlt_dec vDotN_rel ENERGY_DAMPING_THRESHOLD then
      - vDotN_rel * restitution + vObsDotN
    else if Rgt_dec vDotN_gravity 0 then vDotN_gravity
    else vObsDotN in
  let new_vn_x := nx * new_vn_scalar in
  let new_vn_y := ny * new_vn_scalar in
  (* tangential logic *)
  let gravityAlong := gravity * ty in
  let vObsDotT := obsVx * tx + obsVy * ty in
  let vDotT_rel_base := v_rel_x * tx + v_rel_y * ty in
  let vAlong_rel := vDotT_rel_base + gravityAlong in
  let vAlong_rel := vAlong_rel * tangentialFriction in
  let vAlong_rel :=
    vAlong_rel * (1 - tangentialRetention)
    + vDotT_rel_base * tangentialRetention in
  let vAlong := vAlong_rel + vObsDotT in
  let vAlong :=
    if Js.ltb (Rabs vAlong) 0.02 && Js.ltb (vAlong * ty) 0 then 0
    else vAlong in
  (* outgoing velocity *)
  let outVx := tx * vAlong + new_vn_x in
  let outVy := ty * vAlong + new_vn_y in
  let outDotN := outVx * nx + outVy * ny in
  let outVx := if Rlt_dec outDotN 0 then outVx - nx * outDotN else outVx in
  let outVy := if Rlt_dec outDotN 0 then outVy - ny * outDotN else outVy in
  mkContactLocals nx ny pen tx ty obsVx obsVy new_vn_scalar vAlong outVx outVy.

(** Lines 176-181 and, again, 189-194: the locals [dx, dy, speed, vx,
    vy] once the velocity [(vx, vy)] is set. *)
Record Kinematics : Type := mkKinematics {
  k_dx : Js.quot;
  k_dy : Js.quot;
  k_speed : R;
  k_vx : R;
  k_vy : R
}.

Definition settle (stopThreshold vx vy : R) : Kinematics :=
  let newSpeed := Js.hypot vx vy in
  if Rlt_dec newSpeed stopThreshold then
    mkKinematics (Js.Finite 0) (Js.Finite 0) 0 0 0
  else
    mkKinematics (Js.js_div vx newSpeed) (Js.js_div vy newSpeed)
                 newSpeed vx vy.

(** [hits[0]] after the sort; [hits] is not empty where it is used. *)
Definition dominant (h0 : Hit) (rest : list Hit) : Hit :=
  hd h0 (sort by_penetration_desc (h0 :: rest)).

(** The contact branch once [h = hits[0]] is chosen (lines 57-183). *)
Definition contactBranch (f : Frame) (newY : R) (h : Hit) : Result :=
  let c := resolveContact f h in
  let newX := f_newX f + c_nx c * c_pen c in
  let newY := newY + c_ny c * c_pen c in
  let k := settle (f_stopThreshold f) (c_outVx c) (c_outVy c) in
  mkResult newX newY (k_dx k) (k_dy k) (k_speed k) (k_vx k) (k_vy k) true.

(** The airborne branch (lines 186-194). *)
Definition airborne (f : Frame) : Result :=
  let k := settle (f_stopThreshold f) (f_vxFor f) (f_vyFor f) in
  mkResult (f_newX f) (f_newY f) (k_dx k) (k_dy k) (k_speed k)
           (k_vx k) (k_vy k) false.

Definition step (state : State) (obstacles : list Obstacle) (opts : Opts)
  : Result :=
  let f := frame state opts in
  let hits := checkCircleCollisions (f_newX f) (f_newY f) (f_r f) obstacles in
  match hits with
  | [] => airborne f
  | h0 :: rest =>
      let newY :=
        match hits_type hits with
        | Some KRect => f_newY f - f_gravity f
        | _ => f_newY f
        end in
      contactBranch f newY (dominant h0 rest)
  end.

(* ================================================================== *)
(** ** Notions the specification uses *)

(** Euclidean distance between [(ax, ay)] and [(bx, by)]. *)
Definition distance (ax ay bx by_ : R) : R := Js.hypot (ax - bx) (ay - by_).

(** The point of parameter [s] on the segment [(x1,y1)-(x2,y2)]. *)
Definition segment_point (x1 y1 x2 y2 s : R) : R * R :=
  (x1 + (x2 - x1) * s, y1 + (y2 - y1) * s).

(** The parametric projection of [(px, py)] on the segment's line. *)
Definition projection (px py x1 y1 x2 y2 : R) : R :=
  ((px - x1) * (x2 - x1) + (py - y1) * (y2 - y1))
  / ((x2 - x1) * (x2 - x1) + (y2 - y1) * (y2 - y1)).

(** Dot product of [(ax, ay)] and [(bx, by)]. *)
Definition dot (ax ay bx by_ : R) : R := ax * bx + ay * by_.

(** [v] clamped into [[lo, hi]]. *)
Definition clamp (lo hi v : R) : R := Rmax lo (Rmin v hi).

(** A segment's thickness, an absent one counting as [0]. *)
Definition thickness_of (thickness : option R) : R :=
  match thickness with Some t => t | None => 0 end.

(** What the detector's contract compares for an obstacle: the kind of
    hit, the closest point of the shape to the body centre, and the
    effective radius (body radius plus half the thickness for a
    segment, the body radius for a rectangle). *)
Definition contact_geometry (cx cy cr : R) (o : Obstacle)
  : option (HitKind * ClosestPoint * R) :=
  match shape o with
  | Segment x1 y1 x2 y2 thickness =>
      Some (KSegment, closestPointOnSegment cx cy x1 y1 x2 y2,
            cr + thickness_of thickness / 2)
  | Rect x y w h =>
      Some (KRect, mkCP (clamp x (x + w) cx) (clamp y (y + h) cy) None, cr)
  | OtherShape => None
  end.

(** The hit the contract describes for closest point [c] at distance
    [d] and effective radius [rEff]: the unit normal from [c] toward
    the centre (the zero vector at distance [0]) and the penetration
    [rEff - d]. *)
Definition contract_hit (cx cy : R) (o : Obstacle) (k : HitKind)
  (c : ClosestPoint) (rEff : R) : Hit :=
  let d := distance cx cy (cp_x c) (cp_y c) in
  mkHit o k c d
        (if Req_dec_T d 0 then 0 else (cx - cp_x c) / d)
        (if Req_dec_T d 0 then 0 else (cy - cp_y c) / d)
        (rEff - d).

(** The detector emitted a hit for obstacle [o]. *)
Definition emitted (hits : list Hit) (o : Obstacle) : Prop :=
  exists h, In h hits /\ h_source h = o.

(** The working velocity of a step: the persisted [vx], [vy] when
    present, else rebuilt from direction and speed. *)
Definition working_vx (state : State) : R :=
  match s_vx state with Some v => v | None => s_dx state * s_speed state end.
Definition working_vy (state : State) : R :=
  match s_vy state with Some v => v | None => s_dy state * s_speed state end.

(** The configuration values in force, defaults applied. *)
Definition gravity_of (opts : Opts) : R :=
  match o_gravity opts with Some g => g | None => 0.2 end.
Definition stopThreshold_of (opts : Opts) : R :=
  match o_stopThreshold opts with Some t => t | None => 0.02 end.
Definition restitution_of (opts : Opts) : R :=
  match o_restitution opts with Some e => e | None => 0.3 end.
Definition friction_of (opts : Opts) : R :=
  match o_friction opts with Some k => k | None => 0.995 end.
Definition tangentialFriction_of (opts : Opts) : R :=
  match o_tangentialFriction opts with
  | Some k => k
  | None => friction_of opts
  end.
Definition tangentialRetention_of (opts : Opts) : R :=
  match o_tangentialRetention opts with Some k => k | None => 0.6 end.

(** The gravity-advanced tentative position: the old position plus
    [(vx, vy + gravity)]. *)
Definition tentative (state : State) (opts : Opts) : R * R :=
  (s_x state + working_vx state,
   s_y state + (working_vy state + gravity_of opts)).

(** The hits the detector reports against the tentative position. *)
Definition detected (state : State) (obstacles : list Obstacle)
  (opts : Opts) : list Hit :=
  checkCircleCollisions (fst (tentative state opts))
                        (snd (tentative state opts))
                        (s_r state) obstacles.

(** The velocity of the obstacle's contact point: angular velocity
    crossed with the vector from the rotation centre to the contact
    point, zero for an obstacle without angular velocity. *)
Definition contact_point_velocity (o : Obstacle) (c : ClosestPoint)
  : R * R :=
  match angularVelocity o with
  | Some omega =>
      (- omega * (cp_y c - centerY o), omega * (cp_x c - centerX o))
  | None => (0, 0)
  end.

(** The two-branch normal policy, on the relative normal velocity, the
    obstacle's normal velocity and the gravity-inclusive normal
    velocity. *)
Definition normal_policy (rel_n obs_n grav_n restitution : R) : R :=
  if Rlt_dec rel_n (- 0.10) then - rel_n * restitution + obs_n
  else if Rlt_dec 0 grav_n then grav_n
  else obs_n.

(** The tangential policy: friction-scaled and raw relative tangential
    velocity blended by the retention fraction, plus the obstacle's
    tangential velocity. *)
Definition tangential_blend
  (rel_t grav_t obs_t tangentialFriction retention : R) : R :=
  (rel_t + grav_t) * tangentialFriction * (1 - retention)
  + rel_t * retention + obs_t.

(** The anti-creep clamp: a tangential velocity of magnitude below
    [0.02] whose sign opposes that of [ty] becomes [0]. *)
Definition anti_creep (v ty : R) : R :=
  if Rlt_dec (Rabs v) 0.02 then if Rlt_dec (v * ty) 0 then 0 else v
  else v.

(** Recombination: tangent times the tangential scalar plus normal
    times the normal scalar, with the normal component of the result
    removed when it is negative. *)
Definition recombine (tx ty vt nx ny vn : R) : R * R :=
  let vx := tx * vt + nx * vn in
  let vy := ty * vt + ny * vn in
  if Rlt_dec (dot vx vy nx ny) 0
  then (vx - nx * dot vx vy nx ny, vy - ny * dot vx vy nx ny)
  else (vx, vy).

(** The unit tangent the integrator derives from a normal. *)
Definition tangent_of (nx ny : R) : R * R :=
  let len := Js.or_else (Js.hypot (- ny) nx) 1 in
  (- ny / len, nx / len).

(** The normal and the tangential velocity the two policies give for
    a hit [h], from the working velocity of the step, and the velocity
    they recombine to. *)
Definition policy_normal_velocity (state : State) (opts : Opts) (h : Hit)
  : R :=
  let ov := contact_point_velocity (h_source h) (h_cp h) in
  normal_policy
    (dot (working_vx state - fst ov) (working_vy state - snd ov)
         (h_nx h) (h_ny h))
    (dot (fst ov) (snd ov) (h_nx h) (h_ny h))
    (dot (working_vx state) (working_vy state + gravity_of opts)
         (h_nx h) (h_ny h))
    (restitution_of opts).

Definition policy_tangential_velocity (state : State) (opts : Opts) (h : Hit)
  : R :=
  let ov := contact_point_velocity (h_source h) (h_cp h) in
  let t := tangent_of (h_nx h) (h_ny h) in
  anti_creep
    (tangential_blend
       (dot (working_vx state - fst ov) (working_vy state - snd ov)
            (fst t) (snd t))
       (gravity_of opts * snd t)
       (dot (fst ov) (snd ov) (fst t) (snd t))
       (tangentialFriction_of opts) (tangentialRetention_of opts))
    (snd t).

Definition contact_velocity (state : State) (opts : Opts) (h : Hit)
  : R * R :=
  let t := tangent_of (h_nx h) (h_ny h) in
  recombine (fst t) (snd t) (policy_tangential_velocity state opts h)
            (h_nx h) (h_ny h) (policy_normal_velocity state opts h).

(** The velocity a step computes before the stop test: the
    gravity-advanced velocity without contact, the recombined velocity
    of the dominant hit with contact.  Its magnitude is the computed
    speed. *)
Definition computed_velocity (state : State) (obstacles : list Obstacle)
  (opts : Opts) : R * R :=
  match detected state obstacles opts with
  | [] => (working_vx state, working_vy state + gravity_of opts)
  | h0 :: rest => contact_velocity state opts (dominant h0 rest)
  end.

(** The body-state invariant, on the five kinematic fields: the body
    moves, with [speed = hypot(vx, vy)] and [(dx, dy)] the unit vector
    of [(vx, vy)], or it is stopped, all five being [0]. *)
Definition stopped_at (dx dy : Js.quot) (speed vx vy : R) : Prop :=
  dx = Js.Finite 0 /\ dy = Js.Finite 0 /\ speed = 0 /\ vx = 0 /\ vy = 0.

Definition moving_at (dx dy : Js.quot) (speed vx vy : R) : Prop :=
  speed = Js.hypot vx vy /\
  exists ux uy,
    dx = Js.Finite ux /\ dy = Js.Finite uy /\
    ux * ux + uy * uy = 1 /\
    vx = ux * speed /\ vy = uy * speed.

(** The outcome of [0 / 0] for both direction components. *)
Definition degenerate_at (dx dy : Js.quot) (speed vx vy : R) : Prop :=
  vx = 0 /\ vy = 0 /\ speed = 0 /\
  dx = Js.NonFinite /\ dy = Js.NonFinite.

Definition stopped (res : Result) : Prop :=
  stopped_at (r_dx res) (r_dy res) (r_speed res) (r_vx res) (r_vy res).

Definition moving (res : Result) : Prop :=
  moving_at (r_dx res) (r_dy res) (r_speed res) (r_vx res) (r_vy res).

Definition degenerate (res : Result) : Prop :=
  degenerate_at (r_dx res) (r_dy res) (r_speed res) (r_vx res) (r_vy res).

Definition body_invariant (res : Result) : Prop :=
  moving res \/ stopped res.

(** The same on the locals [settle] computes. *)
Definition settled_invariant (k : Kinematics) : Prop :=
  moving_at (k_dx k) (k_dy k) (k_speed k) (k_vx k) (k_vy k) \/
  stopped_at (k_dx k) (k_dy k) (k_speed k) (k_vx k) (k_vy k).

Definition settled_degenerate (k : Kinematics) : Prop :=
  degenerate_at (k_dx k) (k_dy k) (k_speed k) (k_vx k) (k_vy k).

(** A segment's thickness is not negative (other shapes have none). *)
Definition nonneg_thickness (o : Obstacle) : Prop :=
  match shape o with
  | Segment _ _ _ _ thickness => 0 <= thickness_of thickness
  | _ => True
  end.

(** [opts] with its [bounds] field replaced. *)
Definition with_bounds (opts : Opts) (b : option Bounds) : Opts :=
  mkOpts (o_gravity opts) (o_friction opts) b (o_stopThreshold opts)
         (o_restitution opts) (o_tangentialFriction opts)
         (o_tangentialRetention opts).

(* ================================================================== *)
(** ** Scenarios *)

(** The slope of the game: a segment from (0,100) to (100,100) of
    thickness 10, rotating about its middle. *)
Definition platform : Obstacle :=
  mkObstacle (Segment 0 100 100 100 (Some 10)) (Some 0.02) 50 100.

(** A body of radius 15 at rest just above the platform. *)
Definition resting_body : State :=
  mkState 50 80 0 0 0 15 (Some 0) (Some 0).

Definition default_opts : Opts :=
  mkOpts None None None None None None None.

(** The hit of [resting_body] on [platform] after one gravity step. *)
Definition platform_hit : Hit :=
  contract_hit 50 80.2 platform KSegment (mkCP 50 100 (Some 0.5)) 20.

(** A body moving right, already past [width - r] of a 100 x 200
    world. *)
Definition edge_body : State :=
  mkState 100 50 1 0 1 10 (Some 1) (Some 0).

Definition arena_opts : Opts :=
  with_bounds default_opts (Some (mkBounds 100 200)).

(** The same segment, not rotating. *)
Definition floor_segment : Obstacle :=
  mkObstacle (Segment 0 100 100 100 (Some 10)) None 0 0.

(** A body of radius 15 falling onto it, moving right. *)
Definition falling_body : State :=
  mkState 50 79 0 0 0 15 (Some 2) (Some 1).

(** A body whose next tentative centre lies on the segment. *)
Definition grazing_body : State :=
  mkState 50 99.8 0 0 0 15 (Some 0) (Some 0).

(** A thin static segment and a body of negative radius one unit
    above its first endpoint, without gravity. *)
Definition thin_wall : Obstacle :=
  mkObstacle (Segment 0 0 10 0 None) None 0 0.

Definition negative_body : State :=
  mkState 0 1 0 0 0 (-5) (Some 0) (Some 0).

Definition no_gravity : Opts :=
  mkOpts (Some 0) None None None None None None.

Definition thin_wall_hit : Hit :=
  contract_hit 0 1 thin_wall KSegment (mkCP 0 0 (Some 0)) (-5).

(** A body at rest in free space, gravity and stop threshold both 0. *)
Definition still_body : State :=
  mkState 0 0 0 0 0 1 (Some 0) (Some 0).

Definition no_threshold : Opts :=
  mkOpts (Some 0) None None (Some 0) None None None.

(* ================================================================== *)
(** ** The host loop: lasers and the speed limit *)

(** The ball object [{x, y, r}] handed to [checkLaserCollision]. *)
Record Ball : Type := mkBall { b_x : R; b_y : R; b_r : R }.

(** A laser object; its [color] is read by the renderer only. *)
Record Laser : Type := mkLaser {
  l_x : R;
  l_y : R;
  l_width : R;
  l_height : R;
  l_speed : R;
  l_direction : R
}.

Definition checkLaserCollision (ball : Ball) (laser : Laser) : bool :=
  let closestX :=
    Js.max (l_x laser) (Js.min (b_x ball) (l_x laser + l_width laser)) in
  let closestY :=
    Js.max (l_y laser) (Js.min (b_y ball) (l_y laser + l_height laser)) in
  let distX := b_x ball - closestX in
  let distY := b_y ball - closestY in
  Js.ltb (distX * distX + distY * distY) (b_r ball * b_r ball).

(** [laser.x += laser.speed * laser.direction * 60 * deltaTime]. *)
Definition moveLaser (deltaTime : R) (laser : Laser) : Laser :=
  mkLaser (l_x laser + l_speed laser * l_direction laser * 60 * deltaTime)
          (l_y laser) (l_width laser) (l_height laser) (l_speed laser)
          (l_direction laser).

(** The callback of [lasers.filter] in the main loop: the laser after
    its move, whether it is kept, and whether it hit the ball. *)
Definition laserCallback (x y r cnvWidth deltaTime : R) (laser : Laser)
  : Laser * bool * bool :=
  let laser := moveLaser deltaTime laser in
  if checkLaserCollision (mkBall x y r) laser then (laser, true, true)
  else if Req_dec_T (l_direction laser) 1
       then (laser, Js.ltb (l_x laser) cnvWidth, false)
       else (laser, Js.gtb (l_x laser + l_width laser) 0, false).

(** [let hitByLaser = false; lasers = lasers.filter(...)]: the lasers
    kept and the final [hitByLaser], from its value so far. *)
Fixpoint filterLasers (x y r cnvWidth deltaTime : R) (lasers : list Laser)
  (hitByLaser : bool) : list Laser * bool :=
  match lasers with
  | [] => ([], hitByLaser)
  | laser :: rest =>
      let '(moved, keep, hit) := laserCallback x y r cnvWidth deltaTime laser in
      let hitByLaser := if hit then true else hitByLaser in
      let '(kept, hitByLaser) :=
        filterLasers x y r cnvWidth deltaTime rest hitByLaser in
      (if keep then moved :: kept else kept, hitByLaser)
  end.

(** A finite number times, and a possibly non-finite number divided by,
    a finite number: a non-finite operand stays non-finite. *)
Definition qmul (a : R) (q : Js.quot) : Js.quot :=
  match q with
  | Js.Finite v => Js.Finite (a * v)
  | Js.NonFinite => Js.NonFinite
  end.

Definition qdiv (q : Js.quot) (b : R) : Js.quot :=
  match q with
  | Js.Finite v => Js.js_div v b
  | Js.NonFinite => Js.NonFinite
  end.

(** The host's [dx, dy, speed, vx, vy] after a physics step. *)
Record HostVelocity : Type := mkHostVelocity {
  hv_dx : Js.quot;
  hv_dy : Js.quot;
  hv_speed : R;
  hv_vx : Js.quot;
  hv_vy : Js.quot
}.

(** Lines 278-303 of the main loop, right after [step]: the result is
    destructured, a slow body gets zero velocity, and the velocity is
    scaled down to the scaled maximum speed. *)
Definition limitSpeed (physicsResult : Result)
  (scaleFactor currentMaxSpeed : R) : HostVelocity :=
  let dx := r_dx physicsResult in
  let dy := r_dy physicsResult in
  let speed := r_speed physicsResult in
  let vx := r_vx physicsResult in
  let vy := r_vy physicsResult in
  let '(dx, dy, speed, vx, vy) :=
    if Rlt_dec speed (0.05 * scaleFactor) then (dx, dy, speed, 0, 0)
    else
      let speed := Js.hypot vx vy in
      (Js.js_div vx speed, Js.js_div vy speed, speed, vx, vy) in
  let scaledMaxSpeed := currentMaxSpeed * scaleFactor in
  let totalVelocity := Js.hypot vx vy in
  if Rgt_dec totalVelocity scaledMaxSpeed then
    let ratio := Js.js_div scaledMaxSpeed totalVelocity in
    let vx := qmul vx ratio in
    let vy := qmul vy ratio in
    let speed := scaledMaxSpeed in
    mkHostVelocity (qdiv vx speed) (qdiv vy speed) speed vx vy
  else mkHostVelocity dx dy speed (Js.Finite vx) (Js.Finite vy).

(** The velocity a frame of play leaves for the next one: lines
    278-303, then, at the end of the frame,
    [if (x + r > cnv.width || x - r < 0) vx *= -1]; nothing in between
    writes [x], [vx] or [vy]. *)
Definition frameVelocity (physicsResult : Result)
  (scaleFactor currentMaxSpeed r cnvWidth : R) : HostVelocity :=
  let hv := limitSpeed physicsResult scaleFactor currentMaxSpeed in
  let x := r_x physicsResult in
  if Js.gtb (x + r) cnvWidth || Js.ltb (x - r) 0 then
    mkHostVelocity (hv_dx hv) (hv_dy hv) (hv_speed hv)
                   (qmul (- 1) (hv_vx hv)) (hv_vy hv)
  else hv.

(* ================================================================== *)
(** ** touch.mjs: the touch input manager *)

(** The game states of the overlay manager. *)
Inductive GameState : Type := Menu | Playing | GameOver.

(** The closure variables of [TouchInputManager]. *)
Record TouchState : Type := mkTouchState {
  rotatingLeft : bool;
  rotatingRight : bool;
  jump : bool
}.

(** The loop over [touches] (their [clientX]), from the flags so far. *)
Fixpoint scanTouches (screenWidth : R) (touches : list R)
  (hasLeft hasRight : bool) : bool * bool :=
  match touches with
  | [] => (hasLeft, hasRight)
  | xPos :: rest =>
      if Js.ltb xPos (screenWidth / 2)
      then scanTouches screenWidth rest true hasRight
      else scanTouches screenWidth rest hasLeft true
  end.

Definition updateTouchRotationFromTouches (gameState : GameState)
  (screenWidth : R) (touches : list R) (s : TouchState) : TouchState :=
  match gameState with
  | Playing =>
      let '(hasLeft, hasRight) := scanTouches screenWidth touches false false in
      let jump := hasLeft && hasRight in
      if negb jump then mkTouchState hasLeft hasRight jump
      else mkTouchState false false jump
  | _ => mkTouchState false false false
  end.

(** The [touchend] and [touchcancel] handlers. *)
Definition touchEnd (gameState : GameState) (screenWidth : R)
  (touches : list R) (s : TouchState) : TouchState :=
  let s := updateTouchRotationFromTouches gameState screenWidth touches s in
  match touches with
  | [] => mkTouchState false false false
  | _ :: _ => s
  end.

(** The platform angle [alpha] after a frame of [draw].  Only a frame
    in the state ['playing'] computes the frame's angular velocity from
    the touch flags and adds it to [alpha]; any other frame leaves
    [alpha] as it is. *)
Definition rotateFrame (gameState : GameState)
  (rotatingLeft rotatingRight : bool)
  (currentManualRotationSpeed currentAutoRotationSpeed alpha : R) : R :=
  match gameState with
  | Playing =>
      let angularVelocity :=
        if rotatingLeft then - currentManualRotationSpeed
        else if rotatingRight then currentManualRotationSpeed
        else currentAutoRotationSpeed in
      alpha + angularVelocity
  | _ => alpha
  end.

(* ================================================================== *)
(** ** difficulty.mjs *)

Definition TIME_TO_START_INCREASE : R := 10.
Definition BALL_SPEED_INCREASE_FACTOR : R := 0.1.
Definition BASE_MAX_SPEED : R := 10.0.
Definition BASE_MANUAL_ROTATION_SPEED : R := 0.025.
Definition BASE_AUTO_ROTATION_SPEED : R := 0.008.
Definition BASE_LASER_SPEED : R := 3.5.
Definition BASE_LASER_WIDTH : R := 60.
Definition BASE_LASER_HEIGHT : R := 12.
Definition BASE_LASER_SPAWN_INTERVAL : R := 4000.
Definition LASER_SPAWN_DECREASE_FACTOR : R := 30.
Definition MIN_LASER_SPAWN_INTERVAL : R := 1200.

(** The module-level variables. *)
Record Difficulty : Type := mkDifficulty {
  currentMaxSpeed : R;
  currentManualRotationSpeed : R;
  currentAutoRotationSpeed : R;
  gameStartTime : R;
  currentLaserSpawnInterval : R
}.

(** Their values when the module is loaded. *)
Definition loadedDifficulty : Difficulty :=
  mkDifficulty BASE_MAX_SPEED BASE_MANUAL_ROTATION_SPEED
               BASE_AUTO_ROTATION_SPEED 0 BASE_LASER_SPAWN_INTERVAL.

Definition initDifficulty (timestamp : R) (d : Difficulty) : Difficulty :=
  if Req_dec_T (gameStartTime d) 0 then
    mkDifficulty (currentMaxSpeed d) (currentManualRotationSpeed d)
                 (currentAutoRotationSpeed d) timestamp
                 (currentLaserSpawnInterval d)
  else d.

Definition resetDifficulty (timestamp : R) (d : Difficulty) : Difficulty :=
  mkDifficulty BASE_MAX_SPEED (currentManualRotationSpeed d)
               BASE_AUTO_ROTATION_SPEED timestamp BASE_LASER_SPAWN_INTERVAL.

Definition updateDifficulty (timestamp : R) (d : Difficulty) : Difficulty :=
  let elapsedTime := (timestamp - gameStartTime d) / 1000 in
  let '(maxSpeed, interval) :=
    if Rgt_dec elapsedTime TIME_TO_START_INCREASE then
      let timeOverThreshold := elapsedTime - TIME_TO_START_INCREASE in
      let maxSpeed :=
        BASE_MAX_SPEED + timeOverThreshold * BALL_SPEED_INCREASE_FACTOR in
      let decrease := timeOverThreshold * LASER_SPAWN_DECREASE_FACTOR in
      (maxSpeed,
       Js.max (BASE_LASER_SPAWN_INTERVAL - decrease) MIN_LASER_SPAWN_INTERVAL)
    else (BASE_MAX_SPEED, BASE_LASER_SPAWN_INTERVAL) in
  mkDifficulty maxSpeed BASE_MANUAL_ROTATION_SPEED BASE_AUTO_ROTATION_SPEED
               (gameStartTime d) interval.

(** The object returned by [getDifficultyState]. *)
Record DifficultyState : Type := mkDifficultyState {
  ds_currentMaxSpeed : R;
  ds_currentManualRotationSpeed : R;
  ds_currentAutoRotationSpeed : R;
  ds_laserSpeed : R;
  ds_laserWidth : R;
  ds_laserHeight : R;
  ds_laserSpawnInterval : R
}.

Definition getDifficultyState (d : Difficulty) : DifficultyState :=
  mkDifficultyState (currentMaxSpeed d) (currentManualRotationSpeed d)
                    (currentAutoRotationSpeed d) BASE_LASER_SPEED
                    BASE_LASER_WIDTH BASE_LASER_HEIGHT
                    (currentLaserSpawnInterval d).

(* ================================================================== *)
(** ** utils.mjs: the score tracker *)

Module ScoreTracker.

(** The closure variables [score] and [lastUpdateTime]. *)
Record t : Type := mk { score : R; lastUpdateTime : R }.

(** [ScoreTracker()]. *)
Definition create : t := mk 0 0.

Definition updateInterval : R := 1000.

(** [Math.floor]. *)
Definition floor (a : R) : R := IZR (Int_part a).

(** [start()], with the value [performance.now()] returns. *)
Definition start (now : R) (s : t) : t := mk 0 now.

Definition update (timestamp : R) (s : t) : t :=
  let lastUpdateTime :=
    if Req_dec_T (lastUpdateTime s) 0 then timestamp
    else lastUpdateTime s in
  if Rge_dec timestamp (lastUpdateTime + updateInterval) then
    let elapsedSeconds := floor ((timestamp - lastUpdateTime) / updateInterval) in
    mk (score s + elapsedSeconds)
       (lastUpdateTime + elapsedSeconds * updateInterval)
  else mk (score s) lastUpdateTime.

Definition getScore (s : t) : R := score s.

End ScoreTracker.

(* ================================================================== *)
(** ** Further notions for the properties below *)

(** [step] from detection on, as a function of the locals computed
    before it. *)
Definition stepFrame (f : Frame) (obstacles : list Obstacle) : Result :=
  match checkCircleCollisions (f_newX f) (f_newY f) (f_r f) obstacles with
  | [] => airborne f
  | h0 :: rest => contactBranch f (f_newY f) (dominant h0 rest)
  end.

(** The main loop calls [update] once per frame: the tracker after the
    frames of the given timestamps. *)
Definition score_run (timestamps : list R) (s : ScoreTracker.t)
  : ScoreTracker.t :=
  fold_left (fun s timestamp => ScoreTracker.update timestamp s) timestamps s.

(** The timestamps never go back, starting from [lo]. *)
Fixpoint nondecreasing_from (lo : R) (timestamps : list R) : Prop :=
  match timestamps with
  | [] => True
  | t :: rest => lo <= t /\ nondecreasing_from t rest
  end.

(** [state] with its direction and speed fields replaced. *)
Definition with_direction (state : State) (dx dy speed : R) : State :=
  mkState (s_x state) (s_y state) dx dy speed (s_r state)
          (s_vx state) (s_vy state).

(** [opts] with its [friction] field replaced. *)
Definition with_friction (opts : Opts) (k : option R) : Opts :=
  mkOpts (o_gravity opts) k (o_bounds opts) (o_stopThreshold opts)
         (o_restitution opts) (o_tangentialFriction opts)
         (o_tangentialRetention opts).

(** The obstacle has no angular velocity, or angular velocity [0]. *)
Definition static (o : Obstacle) : Prop :=
  angularVelocity o = None \/ angularVelocity o = Some 0.

(** The detector emits a hit for [o]. *)
Definition hitsb (cx cy cr : R) (o : Obstacle) : bool :=
  match collide cx cy cr o with Some _ => true | None => false end.

(** The factor the tangential policy applies to a relative tangential
    velocity when gravity has no tangential component. *)
Definition tangential_factor (opts : Opts) : R :=
  tangentialFriction_of opts * (1 - tangentialRetention_of opts)
  + tangentialRetention_of opts.

(** A laser as a static rectangle obstacle. *)
Definition laser_obstacle (laser : Laser) : Obstacle :=
  mkObstacle (Rect (l_x laser) (l_y laser) (l_width laser) (l_height laser))
             None 0 0.

(** A laser that moves right is still left of the canvas's right edge,
    one that moves left still right of its left edge. *)
Definition on_screen (cnvWidth : R) (laser : Laser) : Prop :=
  if Req_dec_T (l_direction laser) 1 then l_x laser < cnvWidth
  else 0 < l_x laser + l_width laser.

(** A touch in the left half, in the right half. *)
Definition left_touch (screenWidth xPos : R) : Prop := xPos < screenWidth / 2.
Definition right_touch (screenWidth xPos : R) : Prop :=
  ~ xPos < screenWidth / 2.

(* ================================================================== *)
(** ** Arithmetic helpers *)

Lemma sum_sqr_nonneg (a b : R) : 0 <= a * a + b * b.
Proof.
  pose proof (Rle_0_sqr a) as Ha. pose proof (Rle_0_sqr b) as Hb.
  unfold Rsqr in *. lra.
Qed.

Lemma sum_sqr_zero (a b : R) : a * a + b * b = 0 -> a = 0 /\ b = 0.
Proof.
  intros H.
  pose proof (Rle_0_sqr a) as Ha. pose proof (Rle_0_sqr b) as Hb.
  unfold Rsqr in *.
  split; apply Rsqr_0_uniq; unfold Rsqr; lra.
Qed.

Lemma hypot_nonneg (a b : R) : 0 <= Js.hypot a b.
Proof. apply sqrt_pos. Qed.

Lemma hypot_sqr (a b : R) : Js.hypot a b * Js.hypot a b = a * a + b * b.
Proof. unfold Js.hypot. apply sqrt_sqrt, sum_sqr_nonneg. Qed.

Lemma hypot_zero (a b : R) : Js.hypot a b = 0 -> a = 0 /\ b = 0.
Proof.
  intros H. apply sum_sqr_zero. rewrite <- hypot_sqr, H. ring.
Qed.

Lemma hypot_0_0 : Js.hypot 0 0 = 0.
Proof.
  unfold Js.hypot. replace (0 * 0 + 0 * 0) with 0 by ring. apply sqrt_0.
Qed.

Lemma clamp_cases (t0 : R) :
  let t := Js.max 0 (Js.min 1 t0) in
  (0 <= t0 <= 1 /\ t = t0) \/ (t0 <= 0 /\ t = 0) \/ (1 <= t0 /\ t = 1).
Proof.
  unfold Js.max, Js.min, Rmax, Rmin. cbv zeta.
  destruct (Rle_dec 1 t0); destruct (Rle_dec 0 _); lra.
Qed.

(** The squared distance to the line is a quadratic in the parameter;
    the clamped projection minimises it over [0, 1]. *)
Lemma clamped_projection_minimal (a b vx vy t0 t s : R) :
  0 < vx * vx + vy * vy ->
  a * vx + b * vy = t0 * (vx * vx + vy * vy) ->
  (0 <= t0 <= 1 /\ t = t0) \/ (t0 <= 0 /\ t = 0) \/ (1 <= t0 /\ t = 1) ->
  0 <= s <= 1 ->
  (a - vx * t) * (a - vx * t) + (b - vy * t) * (b - vy * t)
  <= (a - vx * s) * (a - vx * s) + (b - vy * s) * (b - vy * s).
Proof.
  intros HD Hdot Hc Hs.
  set (D := vx * vx + vy * vy) in *.
  assert (E : (a - vx * s) * (a - vx * s) + (b - vy * s) * (b - vy * s)
          - ((a - vx * t) * (a - vx * t) + (b - vy * t) * (b - vy * t))
          = (s - t) * (D * (s + t) - 2 * (t0 * D))).
  { rewrite <- Hdot. unfold D. ring. }
  destruct Hc as [[H1 Ht]|[[H1 Ht]|[H1 Ht]]]; subst t.
  - assert (0 <= (s - t0) * (D * (s + t0) - 2 * (t0 * D))).
    { replace ((s - t0) * (D * (s + t0) - 2 * (t0 * D)))
        with (D * ((s - t0) * (s - t0))) by ring.
      apply Rmult_le_pos; [lra|]. apply Rle_0_sqr. }
    lra.
  - assert (0 <= (s - 0) * (D * (s + 0) - 2 * (t0 * D))).
    { replace ((s - 0) * (D * (s + 0) - 2 * (t0 * D)))
        with (D * (s * (s - 2 * t0))) by ring.
      apply Rmult_le_pos; [lra|]. apply Rmult_le_pos; lra. }
    lra.
  - assert (0 <= (s - 1) * (D * (s + 1) - 2 * (t0 * D))).
    { replace ((s - 1) * (D * (s + 1) - 2 * (t0 * D)))
        with (D * ((1 - s) * (2 * t0 - s - 1))) by ring.
      apply Rmult_le_pos; [lra|]. apply Rmult_le_pos; lra. }
    lra.
Qed.

Lemma distinct_endpoints_denom (x1 y1 x2 y2 : R) :
  x1 <> x2 \/ y1 <> y2 ->
  0 < (x2 - x1) * (x2 - x1) + (y2 - y1) * (y2 - y1).
Proof.
  intros Hd.
  destruct (sum_sqr_nonneg (x2 - x1) (y2 - y1)) as [H|H]; [exact H|].
  symmetry in H. apply sum_sqr_zero in H. lra.
Qed.

(* ================================================================== *)
(** ** Geometry: the closest point on a segment *)

(** C3. For a segment with distinct endpoints [closestPointOnSegment]
    returns the point whose parameter is the projection clamped to
    [0, 1], and no point of the segment is nearer to the query point;
    for coincident endpoints it returns the first endpoint with
    [t = 0]. *)
Theorem closestPointOnSegment_minimizes (px py x1 y1 x2 y2 : R) :
  (x1 <> x2 \/ y1 <> y2 ->
   let c := closestPointOnSegment px py x1 y1 x2 y2 in
   let t := Js.max 0 (Js.min 1 (projection px py x1 y1 x2 y2)) in
   0 <= t <= 1 /\
   cp_t c = Some t /\
   (cp_x c, cp_y c) = segment_point x1 y1 x2 y2 t /\
   forall s, 0 <= s <= 1 ->
     distance px py (cp_x c) (cp_y c)
     <= distance px py (fst (segment_point x1 y1 x2 y2 s))
                       (snd (segment_point x1 y1 x2 y2 s)))
  /\ closestPointOnSegment px py x1 y1 x1 y1 = mkCP x1 y1 (Some 0).
Proof.
  split.
  - intros Hd. cbv zeta.
    pose proof (distinct_endpoints_denom x1 y1 x2 y2 Hd) as HD.
    unfold closestPointOnSegment.
    destruct (Req_dec_T _ 0) as [E|_]; [lra|].
    fold (projection px py x1 y1 x2 y2).
    pose proof (clamp_cases (projection px py x1 y1 x2 y2)) as Hc.
    cbv zeta in Hc.
    set (t := Js.max 0 (Js.min 1 (projection px py x1 y1 x2 y2))) in *.
    cbn [cp_x cp_y cp_t].
    split; [lra|]. split; [reflexivity|]. split; [reflexivity|].
    intros s Hs. unfold distance, Js.hypot, segment_point; cbn [fst snd].
    apply sqrt_le_1; try apply sum_sqr_nonneg.
    replace (px - (x1 + (x2 - x1) * t)) with ((px - x1) - (x2 - x1) * t) by ring.
    replace (py - (y1 + (y2 - y1) * t)) with ((py - y1) - (y2 - y1) * t) by ring.
    replace (px - (x1 + (x2 - x1) * s)) with ((px - x1) - (x2 - x1) * s) by ring.
    replace (py - (y1 + (y2 - y1) * s)) with ((py - y1) - (y2 - y1) * s) by ring.
    apply clamped_projection_minimal with (t0 := projection px py x1 y1 x2 y2);
      try assumption.
    unfold projection. field. lra.
  - unfold closestPointOnSegment.
    destruct (Req_dec_T _ 0) as [_|N]; [reflexivity|].
    exfalso. apply N. ring.
Qed.

Lemma closestPointOnSegment_minimizes_witness :
  let c := closestPointOnSegment 3 4 0 0 10 0 in
  let t := Js.max 0 (Js.min 1 (projection 3 4 0 0 10 0)) in
  (0 <> 10 \/ 0 <> 0) /\
  0 <= t <= 1 /\
  cp_t c = Some t /\
  (cp_x c, cp_y c) = segment_point 0 0 10 0 t /\
  distance 3 4 (cp_x c) (cp_y c)
  <= distance 3 4 (fst (segment_point 0 0 10 0 1))
                  (snd (segment_point 0 0 10 0 1)).
Proof.
  assert (Hd : 0 <> 10 \/ 0 <> 0) by (left; lra).
  destruct (proj1 (closestPointOnSegment_minimizes 3 4 0 0 10 0) Hd)
    as (Ht & Hc & Hp & Hmin).
  split; [exact Hd|]. split; [exact Ht|]. split; [exact Hc|].
  split; [exact Hp|]. apply Hmin. lra.
Defined.

(* ================================================================== *)
(** ** The detector *)

Lemma or_else_zero (a : R) : Js.or_else a 0 = a.
Proof. unfold Js.or_else. destruct (Req_dec_T a 0); lra. Qed.

Lemma sqr_le_iff (a b : R) : 0 <= a -> 0 <= b -> (a * a <= b * b <-> a <= b).
Proof.
  intros Ha Hb. split; intros H.
  - destruct (Rle_dec a b) as [L|N]; [exact L|exfalso].
    assert (b * b < a * a) by (apply Rmult_le_0_lt_compat; lra). lra.
  - apply Rmult_le_compat; lra.
Qed.

Lemma unit_quotients (a b : R) :
  Js.hypot a b <> 0 ->
  (a / Js.hypot a b) * (a / Js.hypot a b)
  + (b / Js.hypot a b) * (b / Js.hypot a b) = 1.
Proof.
  intros Hn. pose proof (hypot_sqr a b) as Hs.
  set (d := Js.hypot a b) in *.
  replace (a / d * (a / d) + b / d * (b / d))
    with ((a * a + b * b) / (d * d)) by (field; exact Hn).
  rewrite <- Hs. field. exact Hn.
Qed.

(** The loop body against the contract: the test is on squares. *)
Lemma collide_contract (cx cy cr : R) (o : Obstacle) :
  collide cx cy cr o =
  match contact_geometry cx cy cr o with
  | Some (k, c, rEff) =>
      let d := distance cx cy (cp_x c) (cp_y c) in
      if Rle_dec (d * d) (rEff * rEff)
      then Some (contract_hit cx cy o k c rEff)
      else None
  | None => None
  end.
Proof.
  unfold collide, contact_geometry.
  destruct (shape o) as [x1 y1 x2 y2 th|x y w h|]; [| |reflexivity].
  - cbv zeta. unfold distance. rewrite hypot_sqr.
    replace (Js.or_else (Js.nullish th 0) 0) with (thickness_of th)
      by (rewrite or_else_zero; destruct th; reflexivity).
    destruct (Rle_dec _ _); reflexivity.
  - cbv zeta. unfold distance, clamp. cbn [cp_x cp_y].
    rewrite hypot_sqr, or_else_zero. unfold Js.max, Js.min.
    destruct (Rle_dec _ _); reflexivity.
Qed.

Lemma collide_source (cx cy cr : R) (o : Obstacle) (h : Hit) :
  collide cx cy cr o = Some h -> h_source h = o.
Proof.
  rewrite collide_contract.
  destruct (contact_geometry cx cy cr o) as [[[k c] rEff]|]; [|discriminate].
  cbv zeta. destruct (Rle_dec _ _); [|discriminate].
  intros E. injection E as <-. reflexivity.
Qed.

Lemma In_checkCircleCollisions (cx cy cr : R) (obstacles : list Obstacle)
  (h : Hit) :
  In h (checkCircleCollisions cx cy cr obstacles) <->
  exists o, In o obstacles /\ collide cx cy cr o = Some h.
Proof.
  induction obstacles as [|o rest IH]; cbn [checkCircleCollisions In].
  - split; [tauto|]. intros (o & [] & _).
  - destruct (collide cx cy cr o) as [h'|] eqn:E; cbn [In]; rewrite IH.
    + split.
      * intros [<-|(o' & Hin & Ho')]; [exists o|exists o']; auto.
      * intros (o' & [<-|Hin] & Ho'); [left; congruence|right; eauto].
    + split.
      * intros (o' & Hin & Ho'). eauto.
      * intros (o' & [<-|Hin] & Ho'); [congruence|eauto].
Qed.

Lemma emitted_collide (cx cy cr : R) (obstacles : list Obstacle)
  (o : Obstacle) :
  In o obstacles ->
  (emitted (checkCircleCollisions cx cy cr obstacles) o <->
   exists h, collide cx cy cr o = Some h).
Proof.
  intros Hin. unfold emitted. split.
  - intros (h & Hh & Hs). apply In_checkCircleCollisions in Hh.
    destruct Hh as (o' & _ & Ho').
    pose proof (collide_source _ _ _ _ _ Ho') as E.
    exists h. congruence.
  - intros (h & Hh). exists h. split.
    + apply In_checkCircleCollisions. eauto.
    + eapply collide_source; eauto.
Qed.

(** Every hit carries a unit normal or, at distance [0], the zero
    vector. *)
Lemma contract_hit_normal (cx cy : R) (o : Obstacle) (k : HitKind)
  (c : ClosestPoint) (rEff : R) :
  let h := contract_hit cx cy o k c rEff in
  let d := distance cx cy (cp_x c) (cp_y c) in
  (d = 0 -> h_nx h = 0 /\ h_ny h = 0) /\
  (d <> 0 ->
   h_nx h * d = cx - cp_x c /\ h_ny h * d = cy - cp_y c /\
   h_nx h * h_nx h + h_ny h * h_ny h = 1).
Proof.
  cbv zeta. unfold contract_hit. cbv zeta. cbn [h_nx h_ny].
  destruct (Req_dec_T _ 0) as [E|N].
  - split; [auto|]. intros N. contradiction.
  - split; [intros E; contradiction|]. intros _.
    split; [field; exact N|]. split; [field; exact N|].
    unfold distance in *. apply unit_quotients. exact N.
Qed.

Lemma hit_normal_unit_or_zero (cx cy cr : R) (obstacles : list Obstacle)
  (h : Hit) :
  In h (checkCircleCollisions cx cy cr obstacles) ->
  h_nx h * h_nx h + h_ny h * h_ny h = 1 \/ (h_nx h = 0 /\ h_ny h = 0).
Proof.
  intros Hin. apply In_checkCircleCollisions in Hin.
  destruct Hin as (o & _ & Ho). rewrite collide_contract in Ho.
  destruct (contact_geometry cx cy cr o) as [[[k c] rEff]|]; [|discriminate].
  cbv zeta in Ho. destruct (Rle_dec _ _); [|discriminate].
  injection Ho as <-.
  pose proof (contract_hit_normal cx cy o k c rEff) as [H0 H1].
  destruct (Req_dec_T (distance cx cy (cp_x c) (cp_y c)) 0) as [E|N].
  - right. auto.
  - left. apply H1. exact N.
Qed.

(** C2 (as the code has it). For an obstacle of the list with a
    contact geometry (a segment or a rectangle), a hit is emitted
    exactly when the squared distance from the body centre to the
    closest point is at most the squared effective radius; when the
    effective radius is not negative this is: the distance is at most
    the effective radius.  The hit is the one of the contract:
    penetration = effective radius - distance (not negative for a
    non-negative effective radius), normal = the unit vector from the
    closest point toward the centre, the zero vector at distance 0.
    Obstacles of any other type emit nothing. *)
Theorem detector_contract (cx cy cr : R) (obstacles : list Obstacle)
  (o : Obstacle) :
  In o obstacles ->
  let hits := checkCircleCollisions cx cy cr obstacles in
  match contact_geometry cx cy cr o with
  | Some (k, c, rEff) =>
      let d := distance cx cy (cp_x c) (cp_y c) in
      (emitted hits o <-> d * d <= rEff * rEff) /\
      (0 <= rEff -> (emitted hits o <-> d <= rEff)) /\
      (forall h, In h hits -> h_source h = o ->
         h = contract_hit cx cy o k c rEff /\
         h_penetration h = rEff - d /\
         (d = 0 -> h_nx h = 0 /\ h_ny h = 0) /\
         (d <> 0 ->
          h_nx h * d = cx - cp_x c /\ h_ny h * d = cy - cp_y c /\
          h_nx h * h_nx h + h_ny h * h_ny h = 1) /\
         (0 <= rEff -> 0 <= h_penetration h))
  | None => ~ emitted hits o
  end.
Proof.
  intros Hin hits.
  pose proof (emitted_collide cx cy cr obstacles o Hin) as Hem.
  fold hits in Hem.
  pose proof (collide_contract cx cy cr o) as Hc.
  destruct (contact_geometry cx cy cr o) as [[[k c] rEff]|].
  - cbv zeta in *.
    set (d := distance cx cy (cp_x c) (cp_y c)) in *.
    assert (Hd : 0 <= d) by apply hypot_nonneg.
    assert (Hsq : emitted hits o <-> d * d <= rEff * rEff).
    { rewrite Hem, Hc. destruct (Rle_dec _ _) as [L|N].
      - split; eauto.
      - split; [intros (h & Hh); discriminate|tauto]. }
    split; [exact Hsq|]. split.
    + intros Hr. rewrite Hsq. apply sqr_le_iff; assumption.
    + intros h Hh Hs.
      assert (E : h = contract_hit cx cy o k c rEff).
      { apply In_checkCircleCollisions in Hh.
        destruct Hh as (o' & _ & Ho').
        pose proof (collide_source _ _ _ _ _ Ho') as Es.
        assert (Eo : o' = o) by congruence. clear Es. subst o'.
        rewrite Hc in Ho'. destruct (Rle_dec _ _); [|discriminate].
        congruence. }
      split; [exact E|].
      pose proof (contract_hit_normal cx cy o k c rEff) as [H0 H1].
      cbv zeta in H0, H1. fold d in H0, H1. rewrite <- E in H0, H1.
      assert (Hp : h_penetration h = rEff - d) by (rewrite E; reflexivity).
      split; [exact Hp|].
      split; [exact H0|]. split; [exact H1|].
      intros Hr.
      assert (emitted hits o) as Hemit by (exists h; auto).
      apply (proj1 Hsq) in Hemit.
      apply (proj1 (sqr_le_iff d rEff Hd Hr)) in Hemit.
      rewrite Hp. lra.
  - rewrite Hem, Hc. intros (h & Hh). discriminate.
Qed.

(* ================================================================== *)
(** ** The integrator: structure of a step *)

Lemma frame_tentative (state : State) (opts : Opts) :
  (f_newX (frame state opts), f_newY (frame state opts))
  = tentative state opts.
Proof. reflexivity. Qed.

Lemma frame_config (state : State) (opts : Opts) :
  let f := frame state opts in
  f_gravity f = gravity_of opts /\
  f_stopThreshold f = stopThreshold_of opts /\
  f_restitution f = restitution_of opts /\
  f_tangentialFriction f = tangentialFriction_of opts /\
  f_tangentialRetention f = tangentialRetention_of opts /\
  f_vx0 f = working_vx state /\ f_vy0 f = working_vy state /\
  f_vxFor f = working_vx state /\
  f_vyFor f = working_vy state + gravity_of opts.
Proof. repeat split. Qed.

(** [step] by cases on the detector's answer. *)
Lemma step_cases (state : State) (obstacles : list Obstacle) (opts : Opts) :
  step state obstacles opts =
  match detected state obstacles opts with
  | [] => airborne (frame state opts)
  | h0 :: rest =>
      contactBranch (frame state opts) (snd (tentative state opts))
                    (dominant h0 rest)
  end.
Proof. reflexivity. Qed.

Lemma step_contact (state : State) (obstacles : list Obstacle) (opts : Opts)
  (h0 : Hit) (rest : list Hit) :
  detected state obstacles opts = h0 :: rest ->
  step state obstacles opts =
  contactBranch (frame state opts) (snd (tentative state opts))
                (dominant h0 rest).
Proof. intros E. rewrite step_cases, E. reflexivity. Qed.

Lemma step_airborne (state : State) (obstacles : list Obstacle) (opts : Opts) :
  detected state obstacles opts = [] ->
  step state obstacles opts = airborne (frame state opts).
Proof. intros E. rewrite step_cases, E. reflexivity. Qed.

(** *** The sort and the dominant hit *)

Lemma In_insert_sorted (cmp : Hit -> Hit -> R) (a b : Hit) (l : list Hit) :
  In b (insert_sorted cmp a l) <-> b = a \/ In b l.
Proof.
  induction l as [|c l IH]; cbn [insert_sorted In].
  - intuition.
  - destruct (Rlt_dec 0 (cmp a c)); cbn [In]; [rewrite IH|]; intuition.
Qed.

Lemma In_sort (cmp : Hit -> Hit -> R) (b : Hit) (l : list Hit) :
  In b (sort cmp l) <-> In b l.
Proof.
  induction l as [|a l IH]; cbn [sort fold_right In]; [tauto|].
  fold (sort cmp l). rewrite In_insert_sorted, IH. intuition.
Qed.

(** The head of the sorted list carries the greatest penetration. *)
Lemma sort_head_max (l : list Hit) (d : Hit) :
  l <> [] ->
  forall b, In b l ->
    h_penetration b <= h_penetration (hd d (sort by_penetration_desc l)).
Proof.
  induction l as [|a l IH]; [congruence|]. intros _ b Hb.
  cbn [sort fold_right]. fold (sort by_penetration_desc l).
  destruct l as [|a' l'].
  - cbn. destruct Hb as [<-|[]]. lra.
  - assert (Hne : a' :: l' <> []) by discriminate.
    specialize (IH Hne).
    destruct (sort by_penetration_desc (a' :: l')) as [|m ms] eqn:Es.
    + exfalso. assert (In a' []) as F; [|destruct F].
      rewrite <- Es. apply In_sort. left. reflexivity.
    + cbn [hd] in IH. cbn [insert_sorted].
      destruct (Rlt_dec 0 _) as [L|N]; cbn [hd];
        unfold by_penetration_desc in *; rewrite !or_else_zero in *.
      * destruct Hb as [<-|Hb]; [lra|auto].
      * destruct Hb as [<-|Hb]; [lra|]. specialize (IH b Hb). lra.
Qed.

Lemma dominant_In (h0 : Hit) (rest : list Hit) :
  In (dominant h0 rest) (h0 :: rest).
Proof.
  unfold dominant.
  destruct (sort by_penetration_desc (h0 :: rest)) as [|m ms] eqn:Es.
  - left. reflexivity.
  - apply (In_sort by_penetration_desc). rewrite Es. left. reflexivity.
Qed.

Lemma dominant_max (h0 : Hit) (rest : list Hit) (b : Hit) :
  In b (h0 :: rest) ->
  h_penetration b <= h_penetration (dominant h0 rest).
Proof. apply sort_head_max. discriminate. Qed.

(* ================================================================== *)
(** ** Contact flag and dominant hit *)

(** C4. [step] reports contact exactly when the detector reports a hit
    against the tentative position; then one hit of the list, of
    greatest penetration, is the only one the resolution reads. *)
Theorem contact_flag_and_dominant_hit
  (state : State) (obstacles : list Obstacle) (opts : Opts) :
  let hits := detected state obstacles opts in
  (r_contact (step state obstacles opts) = true <-> hits <> []) /\
  (hits <> [] ->
   exists h,
     In h hits /\
     (forall h', In h' hits -> h_penetration h' <= h_penetration h) /\
     step state obstacles opts =
     contactBranch (frame state opts) (snd (tentative state opts)) h).
Proof.
  cbv zeta. rewrite step_cases.
  destruct (detected state obstacles opts) as [|h0 rest].
  - split.
    + cbn. split; [discriminate|congruence].
    + congruence.
  - split.
    + cbn. split; [discriminate|reflexivity].
    + intros _. exists (dominant h0 rest).
      split; [apply dominant_In|]. split; [|reflexivity].
      intros h'. apply dominant_max.
Qed.

(* ================================================================== *)
(** ** Contact resolution *)

Lemma obstacleVelocity_spec (o : Obstacle) (c : ClosestPoint) :
  obstacleVelocity o c = contact_point_velocity o c.
Proof.
  unfold obstacleVelocity, contact_point_velocity.
  destruct (angularVelocity o) as [omega|]; [|reflexivity].
  destruct (Req_dec_T omega 0) as [->|_]; [|reflexivity].
  f_equal; ring.
Qed.

Lemma or_else_nonzero (a d : R) : d <> 0 -> Js.or_else a d <> 0.
Proof. intros Hd. unfold Js.or_else. destruct (Req_dec_T a 0); assumption. Qed.

Lemma ltb_true (a b : R) : Js.ltb a b = true <-> a < b.
Proof.
  unfold Js.ltb. destruct (Rlt_dec a b); split; auto; discriminate.
Qed.

Lemma tangent_perpendicular (nx ny : R) :
  fst (tangent_of nx ny) * nx + snd (tangent_of nx ny) * ny = 0.
Proof.
  unfold tangent_of. cbn [fst snd].
  assert (Js.or_else (Js.hypot (- ny) nx) 1 <> 0)
    by (apply or_else_nonzero; lra).
  field. assumption.
Qed.

(** The outgoing velocity never points into the surface. *)
Lemma strip_nonneg (nx ny tx ty vA vn : R) :
  tx * nx + ty * ny = 0 ->
  nx * nx + ny * ny = 1 \/ (nx = 0 /\ ny = 0) ->
  let outVx := tx * vA + nx * vn in
  let outVy := ty * vA + ny * vn in
  let outDotN := outVx * nx + outVy * ny in
  0 <= (if Rlt_dec outDotN 0 then outVx - nx * outDotN else outVx) * nx
       + (if Rlt_dec outDotN 0 then outVy - ny * outDotN else outVy) * ny.
Proof.
  intros Hperp Hn. cbv zeta.
  set (outVx := tx * vA + nx * vn). set (outVy := ty * vA + ny * vn).
  set (D := outVx * nx + outVy * ny).
  destruct (Rlt_dec D 0) as [L|N]; [|fold D; lra].
  replace ((outVx - nx * D) * nx + (outVy - ny * D) * ny)
    with (D * (1 - (nx * nx + ny * ny))) by (unfold D; ring).
  destruct Hn as [Hu|[-> ->]].
  - rewrite Hu. lra.
  - exfalso. unfold D in L. lra.
Qed.

Section Resolution.

Variable f : Frame.
Variable h : Hit.

(** Opens [resolveContact f h] at the obstacle velocity it reads. *)
Ltac open_resolve :=
  unfold resolveContact;
  destruct (obstacleVelocity (h_source h) (h_cp h)) as [ox oy].

Lemma resolveContact_normal :
  c_nx (resolveContact f h) = h_nx h /\ c_ny (resolveContact f h) = h_ny h.
Proof. open_resolve. split; reflexivity. Qed.

Lemma resolveContact_pen :
  c_pen (resolveContact f h) = Rmax 0 (h_penetration h).
Proof.
  open_resolve. cbn [c_pen]. rewrite or_else_zero. reflexivity.
Qed.

Lemma resolveContact_tangent :
  (c_tx (resolveContact f h), c_ty (resolveContact f h))
  = tangent_of (h_nx h) (h_ny h).
Proof. open_resolve. reflexivity. Qed.

Lemma resolveContact_obstacle :
  (c_obsVx (resolveContact f h), c_obsVy (resolveContact f h))
  = contact_point_velocity (h_source h) (h_cp h).
Proof.
  rewrite <- obstacleVelocity_spec. open_resolve. reflexivity.
Qed.

(** The normal scalar of the contact branch is the two-branch policy. *)
Lemma resolveContact_normal_scalar :
  let ov := contact_point_velocity (h_source h) (h_cp h) in
  c_new_vn_scalar (resolveContact f h) =
  normal_policy
    (dot (f_vx0 f - fst ov) (f_vy0 f - snd ov) (h_nx h) (h_ny h))
    (dot (fst ov) (snd ov) (h_nx h) (h_ny h))
    (dot (f_vxFor f) (f_vyFor f) (h_nx h) (h_ny h))
    (f_restitution f).
Proof.
  cbv zeta. rewrite <- obstacleVelocity_spec. open_resolve.
  cbn [c_new_vn_scalar fst snd].
  unfold normal_policy, dot, ENERGY_DAMPING_THRESHOLD.
  destruct (Rlt_dec _ (- 0.10)); [reflexivity|].
  destruct (Rgt_dec _ 0) as [G|G]; destruct (Rlt_dec 0 _) as [L|L];
    try reflexivity; exfalso; unfold Rgt in G; contradiction.
Qed.

(** The tangential scalar of the contact branch is the blend followed
    by the anti-creep clamp. *)
Lemma resolveContact_tangential_scalar :
  let ov := contact_point_velocity (h_source h) (h_cp h) in
  let t := tangent_of (h_nx h) (h_ny h) in
  c_vAlong (resolveContact f h) =
  anti_creep
    (tangential_blend
       (dot (f_vx0 f - fst ov) (f_vy0 f - snd ov) (fst t) (snd t))
       (f_gravity f * snd t)
       (dot (fst ov) (snd ov) (fst t) (snd t))
       (f_tangentialFriction f) (f_tangentialRetention f))
    (snd t).
Proof.
  cbv zeta. rewrite <- obstacleVelocity_spec. open_resolve.
  cbn [c_vAlong fst snd].
  unfold anti_creep, tangential_blend, dot, tangent_of, Js.ltb.
  cbn [fst snd].
  destruct (Rlt_dec (Rabs _) 0.02); [|reflexivity].
  destruct (Rlt_dec _ 0); reflexivity.
Qed.

(** The outgoing velocity is the recombination of the two scalars,
    less its normal component when that is negative. *)
Lemma resolveContact_outgoing :
  let c := resolveContact f h in
  (c_outVx c, c_outVy c) =
  recombine (c_tx c) (c_ty c) (c_vAlong c)
            (h_nx h) (h_ny h) (c_new_vn_scalar c).
Proof.
  cbv zeta. open_resolve. unfold recombine, dot.
  cbn [c_outVx c_outVy c_tx c_ty c_vAlong c_new_vn_scalar].
  destruct (Rlt_dec _ 0); reflexivity.
Qed.

Lemma resolveContact_out_nonneg :
  h_nx h * h_nx h + h_ny h * h_ny h = 1 \/ (h_nx h = 0 /\ h_ny h = 0) ->
  0 <= c_outVx (resolveContact f h) * h_nx h
       + c_outVy (resolveContact f h) * h_ny h.
Proof.
  intros Hn. open_resolve. cbn [c_outVx c_outVy].
  pose proof (tangent_perpendicular (h_nx h) (h_ny h)) as Hp.
  unfold tangent_of in Hp. cbn [fst snd] in Hp.
  apply (strip_nonneg _ _ _ _ _ _ Hp Hn).
Qed.

End Resolution.

(** *** Settling the velocity *)

Lemma settle_velocity (st vx vy : R) :
  (k_vx (settle st vx vy) = 0 /\ k_vy (settle st vx vy) = 0) \/
  (k_vx (settle st vx vy) = vx /\ k_vy (settle st vx vy) = vy).
Proof.
  unfold settle. destruct (Rlt_dec _ st); [left|right]; split; reflexivity.
Qed.

Lemma settle_invariant (st vx vy : R) :
  settled_invariant (settle st vx vy) \/
  (st <= 0 /\ settled_degenerate (settle st vx vy)).
Proof.
  unfold settle. destruct (Rlt_dec (Js.hypot vx vy) st) as [L|N].
  - left. right. cbn. repeat split.
  - destruct (Req_dec_T (Js.hypot vx vy) 0) as [E|NE].
    + right. split; [lra|].
      destruct (hypot_zero _ _ E) as [-> ->].
      unfold settled_degenerate, degenerate_at, Js.js_div. cbn.
      rewrite hypot_0_0. destruct (Req_dec_T 0 0); [|lra].
      repeat split.
    + left. left. cbn [k_dx k_dy k_speed k_vx k_vy]. split; [reflexivity|].
      exists (vx / Js.hypot vx vy), (vy / Js.hypot vx vy).
      unfold Js.js_div. destruct (Req_dec_T _ 0); [contradiction|].
      split; [reflexivity|]. split; [reflexivity|].
      split; [apply unit_quotients; assumption|].
      split; field; assumption.
Qed.

Lemma settle_invariant_pos (st vx vy : R) :
  0 < st -> settled_invariant (settle st vx vy).
Proof.
  intros Hst. destruct (settle_invariant st vx vy) as [H|[H _]];
    [exact H|lra].
Qed.

(* ================================================================== *)
(** ** Evaluating the scenarios *)

Lemma closestPointOnSegment_at (px py x1 y1 x2 y2 t : R) :
  0 < (x2 - x1) * (x2 - x1) + (y2 - y1) * (y2 - y1) ->
  0 <= t <= 1 ->
  (px - x1) * (x2 - x1) + (py - y1) * (y2 - y1)
  = t * ((x2 - x1) * (x2 - x1) + (y2 - y1) * (y2 - y1)) ->
  closestPointOnSegment px py x1 y1 x2 y2
  = mkCP (x1 + (x2 - x1) * t) (y1 + (y2 - y1) * t) (Some t).
Proof.
  intros HD Ht Hp. unfold closestPointOnSegment.
  destruct (Req_dec_T _ 0) as [E|_]; [lra|].
  rewrite Hp.
  replace (t * ((x2 - x1) * (x2 - x1) + (y2 - y1) * (y2 - y1))
           / ((x2 - x1) * (x2 - x1) + (y2 - y1) * (y2 - y1)))
    with t by (field; lra).
  destruct (clamp_cases t) as [[_ ->]|[[H ->]|[H ->]]].
  - reflexivity.
  - replace t with 0 by lra. reflexivity.
  - replace t with 1 by lra. reflexivity.
Qed.

Lemma collide_hit (cx cy cr : R) (o : Obstacle) (k : HitKind)
  (c : ClosestPoint) (rEff : R) :
  contact_geometry cx cy cr o = Some (k, c, rEff) ->
  (cx - cp_x c) * (cx - cp_x c) + (cy - cp_y c) * (cy - cp_y c)
  <= rEff * rEff ->
  collide cx cy cr o = Some (contract_hit cx cy o k c rEff).
Proof.
  intros Hg Hle. rewrite collide_contract, Hg. cbv zeta.
  destruct (Rle_dec _ _) as [L|N]; [reflexivity|].
  exfalso. apply N. unfold distance. rewrite hypot_sqr. exact Hle.
Qed.

Lemma platform_detected :
  detected resting_body [platform] default_opts = [platform_hit].
Proof.
  unfold detected, tentative, working_vx, working_vy, gravity_of.
  cbn [fst snd resting_body default_opts s_x s_y s_r s_vx s_vy o_gravity].
  replace (50 + 0) with 50 by lra.
  replace (80 + (0 + 0.2)) with 80.2 by lra.
  cbn [checkCircleCollisions].
  rewrite (collide_hit 50 80.2 15 platform KSegment
             (mkCP 50 100 (Some 0.5)) 20).
  - reflexivity.
  - unfold contact_geometry, platform. cbn [shape thickness_of].
    rewrite (closestPointOnSegment_at 50 80.2 0 100 100 100 0.5) by lra.
    do 2 f_equal; [f_equal|lra]. f_equal; lra.
  - cbn [cp_x cp_y]. lra.
Qed.

Lemma thin_wall_detected :
  detected negative_body [thin_wall] no_gravity = [thin_wall_hit].
Proof.
  unfold detected, tentative, working_vx, working_vy, gravity_of.
  cbn [fst snd negative_body no_gravity s_x s_y s_r s_vx s_vy o_gravity].
  replace (0 + 0) with 0 by lra.
  replace (1 + 0) with 1 by lra.
  cbn [checkCircleCollisions].
  rewrite (collide_hit 0 1 (-5) thin_wall KSegment
             (mkCP 0 0 (Some 0)) (-5)).
  - reflexivity.
  - unfold contact_geometry, thin_wall. cbn [shape thickness_of].
    rewrite (closestPointOnSegment_at 0 1 0 0 10 0 0) by lra.
    do 2 f_equal; [f_equal|lra]. f_equal; lra.
  - cbn [cp_x cp_y]. lra.
Qed.

Lemma distance_0_1 : distance 0 1 0 0 = 1.
Proof.
  unfold distance, Js.hypot.
  replace ((0 - 0) * (0 - 0) + (1 - 0) * (1 - 0)) with 1 by ring.
  apply sqrt_1.
Qed.

Lemma thin_wall_hit_fields :
  h_nx thin_wall_hit = 0 /\ h_ny thin_wall_hit = 1 /\
  h_penetration thin_wall_hit = - 6.
Proof.
  unfold thin_wall_hit, contract_hit. cbv zeta.
  cbn [h_nx h_ny h_penetration cp_x cp_y].
  rewrite distance_0_1.
  destruct (Req_dec_T 1 0) as [E|_]; [lra|].
  repeat split; lra.
Qed.

Lemma dominant_single (h : Hit) : dominant h [] = h.
Proof. reflexivity. Qed.

Lemma hypot_not_below (a b c : R) :
  0 <= c -> c * c <= a * a + b * b -> ~ Js.hypot a b < c.
Proof.
  intros Hc Hle Hlt. pose proof (hypot_nonneg a b) as Hn.
  pose proof (hypot_sqr a b) as Hs.
  assert (Js.hypot a b * Js.hypot a b < c * c)
    by (apply Rmult_le_0_lt_compat; lra).
  lra.
Qed.

Lemma hit_penetration_nonneg (cx cy cr : R) (obstacles : list Obstacle)
  (h : Hit) :
  0 <= cr -> Forall nonneg_thickness obstacles ->
  In h (checkCircleCollisions cx cy cr obstacles) ->
  0 <= h_penetration h.
Proof.
  intros Hr Hth Hin. apply In_checkCircleCollisions in Hin.
  destruct Hin as (o & Ho & Hc).
  rewrite Forall_forall in Hth. specialize (Hth o Ho).
  rewrite collide_contract in Hc.
  destruct (contact_geometry cx cy cr o) as [[[k c] rEff]|] eqn:Eg;
    [|discriminate].
  assert (HrEff : 0 <= rEff).
  { unfold contact_geometry, nonneg_thickness in *.
    destruct (shape o); try discriminate; injection Eg as _ _ <-; lra. }
  cbv zeta in Hc. destruct (Rle_dec _ _) as [L|_]; [|discriminate].
  injection Hc as <-. unfold contract_hit. cbn [h_penetration].
  apply (proj1 (sqr_le_iff _ _ (hypot_nonneg _ _) HrEff)) in L.
  unfold distance. lra.
Qed.

(* ================================================================== *)
(** ** Properties of a step with contact *)

(** C5 (as the code has it). When a contact is resolved the returned
    position is the tentative position, old position plus
    [(vx, vy + gravity)], displaced by the dominant hit's normal times
    its penetration clamped below at 0, for segments and rectangles
    alike; this is the normal times the penetration whenever the
    penetration is not negative, which is the case whenever the body
    radius and the segments' thicknesses are not negative. *)
Theorem contact_position
  (state : State) (obstacles : list Obstacle) (opts : Opts)
  (h0 : Hit) (rest : list Hit) :
  detected state obstacles opts = h0 :: rest ->
  let h := dominant h0 rest in
  let res := step state obstacles opts in
  let p := tentative state opts in
  (r_x res = fst p + h_nx h * Rmax 0 (h_penetration h) /\
   r_y res = snd p + h_ny h * Rmax 0 (h_penetration h)) /\
  (0 <= h_penetration h ->
   r_x res = fst p + h_nx h * h_penetration h /\
   r_y res = snd p + h_ny h * h_penetration h) /\
  (0 <= s_r state -> Forall nonneg_thickness obstacles ->
   0 <= h_penetration h).
Proof.
  intros E. cbv zeta. rewrite (step_contact _ _ _ _ _ E).
  unfold contactBranch. cbn [r_x r_y].
  destruct (resolveContact_normal (frame state opts) (dominant h0 rest))
    as [-> ->].
  rewrite resolveContact_pen.
  split; [split; reflexivity|]. split.
  - intros Hp. rewrite Rmax_right by exact Hp. split; reflexivity.
  - intros Hr Hth.
    apply (hit_penetration_nonneg (fst (tentative state opts))
             (snd (tentative state opts)) (s_r state) obstacles _ Hr Hth).
    fold (detected state obstacles opts). rewrite E. apply dominant_In.
Qed.

Lemma contact_position_witness :
  let h := dominant platform_hit [] in
  let res := step resting_body [platform] default_opts in
  let p := tentative resting_body default_opts in
  r_x res = fst p + h_nx h * Rmax 0 (h_penetration h) /\
  r_y res = snd p + h_ny h * Rmax 0 (h_penetration h).
Proof.
  exact (proj1 (contact_position resting_body [platform] default_opts
                  platform_hit [] platform_detected)).
Defined.

(** With the raw penetration in place of the clamped one the property
    fails for a hit of negative penetration: the body of radius -5 one
    unit above the thin wall gets a hit of penetration -6 and is not
    displaced. *)
Lemma contact_position_negative_penetration :
  detected negative_body [thin_wall] no_gravity = [thin_wall_hit] /\
  let h := dominant thin_wall_hit [] in
  let res := step negative_body [thin_wall] no_gravity in
  let p := tentative negative_body no_gravity in
  r_y res = 1 /\
  snd p + h_ny h * h_penetration h = - 5 /\
  r_y res <> snd p + h_ny h * h_penetration h.
Proof.
  split; [exact thin_wall_detected|]. cbv zeta.
  rewrite (step_contact _ _ _ _ _ thin_wall_detected), dominant_single.
  unfold contactBranch. cbn [r_y].
  destruct (resolveContact_normal (frame negative_body no_gravity)
              thin_wall_hit) as [_ ->].
  rewrite resolveContact_pen.
  destruct thin_wall_hit_fields as (_ & -> & ->).
  rewrite Rmax_left by lra.
  unfold tentative, working_vy, gravity_of. cbn.
  repeat split; lra.
Qed.

(** C9. In a step that resolves a contact, the returned velocity has a
    non-negative dot product with the dominant hit's normal. *)
Theorem outgoing_velocity_not_into_surface
  (state : State) (obstacles : list Obstacle) (opts : Opts)
  (h0 : Hit) (rest : list Hit) :
  detected state obstacles opts = h0 :: rest ->
  let h := dominant h0 rest in
  let res := step state obstacles opts in
  0 <= dot (r_vx res) (r_vy res) (h_nx h) (h_ny h).
Proof.
  intros E. cbv zeta. rewrite (step_contact _ _ _ _ _ E).
  unfold contactBranch, dot. cbn [r_vx r_vy].
  set (f := frame state opts). set (h := dominant h0 rest).
  assert (Hn : h_nx h * h_nx h + h_ny h * h_ny h = 1
               \/ (h_nx h = 0 /\ h_ny h = 0)).
  { apply (hit_normal_unit_or_zero (fst (tentative state opts))
             (snd (tentative state opts)) (s_r state) obstacles).
    fold (detected state obstacles opts). rewrite E. apply dominant_In. }
  pose proof (resolveContact_out_nonneg f h Hn) as Hout.
  destruct (settle_velocity (f_stopThreshold f)
              (c_outVx (resolveContact f h)) (c_outVy (resolveContact f h)))
    as [[-> ->]|[-> ->]]; lra.
Qed.

Lemma outgoing_velocity_not_into_surface_witness :
  let h := dominant platform_hit [] in
  let res := step resting_body [platform] default_opts in
  0 <= dot (r_vx res) (r_vy res) (h_nx h) (h_ny h).
Proof.
  exact (outgoing_velocity_not_into_surface resting_body [platform]
           default_opts platform_hit [] platform_detected).
Defined.

(* ================================================================== *)
(** ** The body-state invariant *)

Lemma step_settled (state : State) (obstacles : list Obstacle) (opts : Opts) :
  let res := step state obstacles opts in
  exists vx vy,
    let k := settle (stopThreshold_of opts) vx vy in
    r_dx res = k_dx k /\ r_dy res = k_dy k /\ r_speed res = k_speed k /\
    r_vx res = k_vx k /\ r_vy res = k_vy k.
Proof.
  cbv zeta. rewrite step_cases.
  destruct (detected state obstacles opts) as [|h0 rest].
  - exists (f_vxFor (frame state opts)), (f_vyFor (frame state opts)).
    repeat split.
  - exists (c_outVx (resolveContact (frame state opts) (dominant h0 rest))),
           (c_outVy (resolveContact (frame state opts) (dominant h0 rest))).
    repeat split.
Qed.

(** Without the condition on the stop threshold the invariant fails:
    with a stop threshold of 0, a body at rest without gravity is
    returned with speed 0 and non-finite direction components. *)
Lemma zero_threshold_breaks_invariant :
  let res := step still_body [] no_threshold in
  r_dx res = Js.NonFinite /\ r_dy res = Js.NonFinite /\
  r_speed res = 0 /\ r_vx res = 0 /\ r_vy res = 0 /\
  ~ body_invariant res.
Proof.
  cbv zeta.
  assert (E : step still_body [] no_threshold
              = mkResult (0 + 0) (0 + (0 + 0)) Js.NonFinite Js.NonFinite
                         (Js.hypot 0 (0 + 0)) 0 (0 + 0) false).
  { unfold step, airborne, settle, frame, still_body, no_threshold.
    cbn [checkCircleCollisions f_stopThreshold f_vxFor f_vyFor f_newX f_newY
         f_r Js.nullish o_gravity o_stopThreshold s_x s_y s_vx s_vy s_r].
    replace (Js.hypot 0 (0 + 0)) with 0
      by (replace (0 + 0) with 0 by lra; symmetry; apply hypot_0_0).
    destruct (Rlt_dec 0 0) as [L|_]; [lra|].
    unfold Js.js_div. destruct (Req_dec_T 0 0) as [_|N]; [|lra].
    cbn. reflexivity. }
  rewrite E. cbn [r_dx r_dy r_speed r_vx r_vy].
  replace (0 + 0) with 0 by lra. rewrite hypot_0_0.
  repeat split.
  intros [(_ & ux & uy & Hx & _)|(Hx & _)]; cbn in Hx; discriminate.
Qed.

(* ================================================================== *)
(** ** World bounds *)

(** C10. The state returned by [step] is the same for any two values of
    the world bounds. *)
Theorem bounds_noninterference
  (state : State) (obstacles : list Obstacle) (opts : Opts)
  (b1 b2 : option Bounds) :
  step state obstacles (with_bounds opts b1)
  = step state obstacles (with_bounds opts b2).
Proof.
  unfold step, airborne, contactBranch, resolveContact, frame, with_bounds.
  cbn [f_gravity f_stopThreshold f_restitution f_tangentialFriction
       f_tangentialRetention f_r f_vx0 f_vy0 f_vxFor f_vyFor f_newX f_newY
       o_gravity o_friction o_bounds o_stopThreshold o_restitution
       o_tangentialFriction o_tangentialRetention].
  reflexivity.
Qed.

(** C1, on the code.  A body at [x = 100 >= width - r = 90] moving right
    ([dx = 1], [vx = 1]) in a 100 x 200 world: the returned velocity
    still points right and the returned position is 101, outside
    [[0, 100]]. *)
Theorem edge_body_not_reflected :
  let res := step edge_body [] arena_opts in
  s_x edge_body >= 100 - s_r edge_body /\ s_dx edge_body > 0 /\
  r_vx res = 1 /\ r_x res = 101 /\
  exists d, r_dx res = Js.Finite d /\ 0 < d.
Proof.
  cbv zeta.
  assert (Hs : ~ Js.hypot 1 (0 + 0.2) < 0.02)
    by (apply hypot_not_below; lra).
  assert (Hp : 0 < Js.hypot 1 (0 + 0.2)).
  { pose proof (hypot_nonneg 1 (0 + 0.2)). lra. }
  unfold step, airborne, settle, frame, edge_body, arena_opts, with_bounds,
    default_opts.
  cbn [checkCircleCollisions f_stopThreshold f_vxFor f_vyFor f_newX f_newY
       f_r Js.nullish o_gravity o_stopThreshold s_x s_y s_vx s_vy s_r s_dx].
  destruct (Rlt_dec _ 0.02) as [L|_]; [contradiction|].
  cbn [r_vx r_x r_dx k_dx k_vx].
  split; [lra|]. split; [lra|]. split; [reflexivity|]. split; [lra|].
  unfold Js.js_div. destruct (Req_dec_T _ 0) as [E|_]; [lra|].
  eexists. split; [reflexivity|]. apply Rdiv_lt_0_compat; lra.
Qed.

(* ================================================================== *)
(** ** The detector on the scenarios *)

Lemma thin_wall_geometry :
  contact_geometry 0 1 (-5) thin_wall
  = Some (KSegment, mkCP 0 0 (Some 0), -5).
Proof.
  unfold contact_geometry, thin_wall. cbn [shape thickness_of].
  rewrite (closestPointOnSegment_at 0 1 0 0 10 0 0) by lra.
  do 2 f_equal; [f_equal|lra]. f_equal; lra.
Qed.

Lemma thin_wall_hits :
  checkCircleCollisions 0 1 (-5) [thin_wall] = [thin_wall_hit].
Proof.
  cbn [checkCircleCollisions].
  rewrite (collide_hit 0 1 (-5) thin_wall KSegment (mkCP 0 0 (Some 0)) (-5)).
  - reflexivity.
  - exact thin_wall_geometry.
  - cbn [cp_x cp_y]. lra.
Qed.

(** "A hit exactly when the distance is at most the effective radius"
    fails for a negative effective radius: for the body of radius -5
    one unit above the thin wall the distance is 1, the effective
    radius is -5, and a hit of penetration -6 is emitted. *)
Lemma detector_negative_radius :
  let hits := checkCircleCollisions 0 1 (-5) [thin_wall] in
  contact_geometry 0 1 (-5) thin_wall
  = Some (KSegment, mkCP 0 0 (Some 0), -5) /\
  distance 0 1 0 0 = 1 /\
  hits = [thin_wall_hit] /\
  h_penetration thin_wall_hit = - 6 /\
  ~ (emitted hits thin_wall <-> distance 0 1 0 0 <= -5).
Proof.
  cbv zeta. split; [exact thin_wall_geometry|].
  split; [exact distance_0_1|]. split; [exact thin_wall_hits|].
  split; [apply thin_wall_hit_fields|].
  rewrite thin_wall_hits, distance_0_1. intros [H _].
  assert (1 <= -5); [|lra].
  apply H. exists thin_wall_hit. split; [left; reflexivity|reflexivity].
Qed.

Lemma detector_contract_witness :
  let c := closestPointOnSegment 50 80.2 0 100 100 100 in
  let d := distance 50 80.2 (cp_x c) (cp_y c) in
  let rEff := 15 + thickness_of (Some 10) / 2 in
  emitted (checkCircleCollisions 50 80.2 15 [platform]) platform
  <-> d * d <= rEff * rEff.
Proof.
  exact (proj1 (detector_contract 50 80.2 15 [platform] platform
                  (or_introl eq_refl))).
Defined.

Lemma contact_flag_and_dominant_hit_witness :
  exists h,
    In h (detected resting_body [platform] default_opts) /\
    (forall h', In h' (detected resting_body [platform] default_opts) ->
                h_penetration h' <= h_penetration h) /\
    step resting_body [platform] default_opts =
    contactBranch (frame resting_body default_opts)
                  (snd (tentative resting_body default_opts)) h.
Proof.
  apply (proj2 (contact_flag_and_dominant_hit resting_body [platform]
                  default_opts)).
  rewrite platform_detected. discriminate.
Defined.

(* ================================================================== *)
(** ** More on the detector *)

(** X1. The detector works obstacle by obstacle: the hits for a
    concatenated list are the hits for its parts, concatenated. *)
Theorem checkCircleCollisions_app (cx cy cr : R) (l1 l2 : list Obstacle) :
  checkCircleCollisions cx cy cr (l1 ++ l2)
  = checkCircleCollisions cx cy cr l1 ++ checkCircleCollisions cx cy cr l2.
Proof.
  induction l1 as [|o l1 IH]; [reflexivity|].
  cbn [app checkCircleCollisions]. rewrite IH.
  destruct (collide cx cy cr o); reflexivity.
Qed.

(** X2. The hits come in obstacle order, one per obstacle that is hit:
    their sources are the obstacles of the list that are hit, in the
    order of the list; so there are never more hits than obstacles. *)
Theorem hit_sources_in_order (cx cy cr : R) (obstacles : list Obstacle) :
  let hits := checkCircleCollisions cx cy cr obstacles in
  map h_source hits = filter (hitsb cx cy cr) obstacles /\
  (length hits <= length obstacles)%nat.
Proof.
  cbv zeta. induction obstacles as [|o rest [IH1 IH2]]; [split; auto|].
  cbn [checkCircleCollisions filter]. unfold hitsb at 1.
  destruct (collide cx cy cr o) as [h|] eqn:E.
  - cbn [map length]. rewrite IH1, (collide_source _ _ _ _ _ E).
    split; [reflexivity|]. apply le_n_S. exact IH2.
  - split; [exact IH1|]. cbn [length]. apply le_S. exact IH2.
Qed.

Lemma checkCircleCollisions_filter (cx cy cr : R) (obstacles : list Obstacle) :
  checkCircleCollisions cx cy cr (filter (hitsb cx cy cr) obstacles)
  = checkCircleCollisions cx cy cr obstacles.
Proof.
  induction obstacles as [|o rest IH]; [reflexivity|].
  cbn [filter checkCircleCollisions]. unfold hitsb at 1.
  destruct (collide cx cy cr o) as [h|] eqn:E.
  - cbn [checkCircleCollisions]. rewrite E, IH. reflexivity.
  - exact IH.
Qed.

(** X3. [step] depends on the obstacles only through those the body
    hits at its tentative position: dropping every other obstacle from
    the list does not change the returned state. *)
Theorem step_ignores_missed_obstacles
  (state : State) (obstacles : list Obstacle) (opts : Opts) :
  let p := tentative state opts in
  step state (filter (hitsb (fst p) (snd p) (s_r state)) obstacles) opts
  = step state obstacles opts.
Proof.
  cbv zeta. rewrite !step_cases. unfold detected.
  rewrite checkCircleCollisions_filter. reflexivity.
Qed.

(* ================================================================== *)
(** ** More on the closest point *)

Lemma closestPointOnSegment_proper (px py x1 y1 x2 y2 : R) :
  (x2 - x1) * (x2 - x1) + (y2 - y1) * (y2 - y1) <> 0 ->
  let t := Js.max 0 (Js.min 1 (projection px py x1 y1 x2 y2)) in
  closestPointOnSegment px py x1 y1 x2 y2
  = mkCP (x1 + (x2 - x1) * t) (y1 + (y2 - y1) * t) (Some t).
Proof.
  intros HD. cbv zeta. unfold closestPointOnSegment.
  destruct (Req_dec_T _ 0) as [E|_]; [contradiction|]. reflexivity.
Qed.

Lemma closestPointOnSegment_degenerate (px py x1 y1 x2 y2 : R) :
  (x2 - x1) * (x2 - x1) + (y2 - y1) * (y2 - y1) = 0 ->
  closestPointOnSegment px py x1 y1 x2 y2 = mkCP x1 y1 (Some 0)
  /\ x2 = x1 /\ y2 = y1.
Proof.
  intros HD. unfold closestPointOnSegment.
  destruct (Req_dec_T _ 0) as [_|N]; [|contradiction].
  apply sum_sqr_zero in HD. split; [reflexivity|]. lra.
Qed.

Lemma clamp_flip (u : R) :
  Js.max 0 (Js.min 1 (1 - u)) = 1 - Js.max 0 (Js.min 1 u).
Proof.
  unfold Js.max, Js.min, Rmax, Rmin.
  destruct (Rle_dec 1 (1 - u)); destruct (Rle_dec 1 u);
    repeat (destruct (Rle_dec 0 _)); lra.
Qed.

Lemma clamp_range (u : R) : 0 <= Js.max 0 (Js.min 1 u) <= 1.
Proof. destruct (clamp_cases u) as [[? ->]|[[? ->]|[? ->]]]; lra. Qed.

Lemma convex_between (a b t : R) :
  0 <= t <= 1 -> Rmin a b <= a + (b - a) * t <= Rmax a b.
Proof.
  intros Ht. unfold Rmin, Rmax. destruct (Rle_dec a b) as [L|N].
  - pose proof (Rmult_le_pos (b - a) t). pose proof (Rmult_le_pos (b - a) (1 - t)).
    lra.
  - pose proof (Rmult_le_pos (a - b) t). pose proof (Rmult_le_pos (a - b) (1 - t)).
    lra.
Qed.

(** The closest point lies in the segment's bounding box. *)
Lemma closestPointOnSegment_in_box (px py x1 y1 x2 y2 : R) :
  let c := closestPointOnSegment px py x1 y1 x2 y2 in
  Rmin x1 x2 <= cp_x c <= Rmax x1 x2 /\ Rmin y1 y2 <= cp_y c <= Rmax y1 y2.
Proof.
  cbv zeta.
  destruct (Req_dec_T ((x2 - x1) * (x2 - x1) + (y2 - y1) * (y2 - y1)) 0)
    as [E|N].
  - destruct (closestPointOnSegment_degenerate px py _ _ _ _ E) as (-> & -> & ->).
    cbn [cp_x cp_y]. rewrite !Rmin_left, !Rmax_left by lra. lra.
  - rewrite (closestPointOnSegment_proper px py _ _ _ _ N). cbn [cp_x cp_y].
    split; apply convex_between, clamp_range.
Qed.

(** X4. Swapping a segment's endpoints does not move the closest point;
    for distinct endpoints its parameter [t] becomes [1 - t]. *)
Theorem closestPointOnSegment_swap (px py x1 y1 x2 y2 : R) :
  let c := closestPointOnSegment px py x1 y1 x2 y2 in
  let c' := closestPointOnSegment px py x2 y2 x1 y1 in
  cp_x c' = cp_x c /\ cp_y c' = cp_y c /\
  (x1 <> x2 \/ y1 <> y2 ->
   exists t, cp_t c = Some t /\ cp_t c' = Some (1 - t)).
Proof.
  cbv zeta.
  destruct (Req_dec_T ((x2 - x1) * (x2 - x1) + (y2 - y1) * (y2 - y1)) 0)
    as [E|N].
  - destruct (closestPointOnSegment_degenerate px py _ _ _ _ E) as (-> & Hx & Hy).
    assert (E' : (x1 - x2) * (x1 - x2) + (y1 - y2) * (y1 - y2) = 0)
      by (rewrite <- E; ring).
    destruct (closestPointOnSegment_degenerate px py _ _ _ _ E') as (-> & _ & _).
    cbn [cp_x cp_y cp_t]. split; [exact Hx|]. split; [exact Hy|].
    intros [H|H]; exfalso; apply H; symmetry; assumption.
  - assert (N' : (x1 - x2) * (x1 - x2) + (y1 - y2) * (y1 - y2) <> 0)
      by (intros E'; apply N; rewrite <- E'; ring).
    rewrite (closestPointOnSegment_proper px py x1 y1 x2 y2 N).
    rewrite (closestPointOnSegment_proper px py x2 y2 x1 y1 N').
    cbn [cp_x cp_y cp_t].
    assert (Hp : projection px py x2 y2 x1 y1
                 = 1 - projection px py x1 y1 x2 y2).
    { unfold projection. field.
      first [ exact N | exact N' | split; assumption
            | intros E'; apply N; rewrite <- E'; ring ]. }
    rewrite Hp, clamp_flip.
    set (t := Js.max 0 (Js.min 1 (projection px py x1 y1 x2 y2))).
    split; [ring|]. split; [ring|]. intros _. exists t. split; reflexivity.
Qed.

Lemma collide_centre_on_segment
  (o : Obstacle) (x1 y1 x2 y2 cr s : R) (thickness : option R) :
  shape o = Segment x1 y1 x2 y2 thickness ->
  x1 <> x2 \/ y1 <> y2 ->
  0 <= s <= 1 ->
  let cx := x1 + (x2 - x1) * s in
  let cy := y1 + (y2 - y1) * s in
  exists h,
    collide cx cy cr o = Some h /\
    cp_x (h_cp h) = cx /\ cp_y (h_cp h) = cy /\ cp_t (h_cp h) = Some s /\
    h_dist h = 0 /\ h_nx h = 0 /\ h_ny h = 0 /\
    h_penetration h = cr + thickness_of thickness / 2.
Proof.
  intros Hs Hd Hrange. cbv zeta.
  pose proof (distinct_endpoints_denom x1 y1 x2 y2 Hd) as HD.
  set (cx := x1 + (x2 - x1) * s). set (cy := y1 + (y2 - y1) * s).
  assert (Hc : closestPointOnSegment cx cy x1 y1 x2 y2 = mkCP cx cy (Some s)).
  { apply closestPointOnSegment_at; [exact HD|exact Hrange|].
    unfold cx, cy. ring. }
  assert (Hg : contact_geometry cx cy cr o
               = Some (KSegment, mkCP cx cy (Some s),
                       cr + thickness_of thickness / 2)).
  { unfold contact_geometry. rewrite Hs, Hc. reflexivity. }
  eexists. split.
  - apply (collide_hit _ _ _ _ _ _ _ Hg). cbn [cp_x cp_y].
    pose proof (Rle_0_sqr (cr + thickness_of thickness / 2)) as Hq.
    unfold Rsqr in Hq. lra.
  - unfold contract_hit. cbv zeta.
    cbn [h_cp h_dist h_nx h_ny h_penetration cp_x cp_y cp_t].
    assert (Hz : distance cx cy cx cy = 0).
    { unfold distance. replace (cx - cx) with 0 by ring.
      replace (cy - cy) with 0 by ring. apply hypot_0_0. }
    rewrite Hz. destruct (Req_dec_T 0 0) as [_|N]; [|contradiction].
    repeat split; lra.
Qed.

(** X5. A body centred on a point of a segment obstacle always gets a
    hit, whatever its radius: the closest point is the centre itself,
    the distance is 0, the normal is the zero vector and the
    penetration is the whole effective radius. *)
Theorem centre_on_segment_hit
  (o : Obstacle) (x1 y1 x2 y2 cr s : R) (thickness : option R) :
  shape o = Segment x1 y1 x2 y2 thickness ->
  x1 <> x2 \/ y1 <> y2 ->
  0 <= s <= 1 ->
  let cx := x1 + (x2 - x1) * s in
  let cy := y1 + (y2 - y1) * s in
  exists h,
    collide cx cy cr o = Some h /\
    cp_x (h_cp h) = cx /\ cp_y (h_cp h) = cy /\ cp_t (h_cp h) = Some s /\
    h_dist h = 0 /\ h_nx h = 0 /\ h_ny h = 0 /\
    h_penetration h = cr + thickness_of thickness / 2.
Proof.
  intros Hs Hd Hrange.
  exact (collide_centre_on_segment o x1 y1 x2 y2 cr s thickness Hs Hd Hrange).
Qed.

Lemma centre_on_segment_hit_witness :
  exists h,
    collide (0 + (100 - 0) * 0.5) (100 + (100 - 100) * 0.5) 15 platform
    = Some h /\
    h_dist h = 0 /\ h_nx h = 0 /\ h_ny h = 0 /\
    h_penetration h = 15 + thickness_of (Some 10) / 2.
Proof.
  assert (Hd : 0 <> 100 \/ 100 <> 100) by (left; lra).
  assert (Hs : 0 <= 0.5 <= 1) by lra.
  destruct (centre_on_segment_hit platform 0 100 100 100 15 0.5 (Some 10)
              eq_refl Hd Hs) as (h & Hh & _ & _ & _ & H1 & H2 & H3 & H4).
  exists h. repeat split; assumption.
Defined.

(** X6. A body whose bounding square, grown by half the thickness,
    misses the bounding box of a segment gets no hit from it (for a
    non-negative effective radius). *)
Theorem no_hit_outside_bounding_box
  (o : Obstacle) (cx cy cr x1 y1 x2 y2 : R) (thickness : option R) :
  shape o = Segment x1 y1 x2 y2 thickness ->
  let rEff := cr + thickness_of thickness / 2 in
  0 <= rEff ->
  cx + rEff < Rmin x1 x2 \/ Rmax x1 x2 < cx - rEff \/
  cy + rEff < Rmin y1 y2 \/ Rmax y1 y2 < cy - rEff ->
  collide cx cy cr o = None.
Proof.
  intros Hs rEff Hr Hout. rewrite collide_contract.
  unfold contact_geometry. rewrite Hs. cbv zeta. fold rEff.
  destruct (Rle_dec _ _) as [L|_]; [exfalso|reflexivity].
  unfold distance in L. rewrite hypot_sqr in L.
  pose proof (closestPointOnSegment_in_box cx cy x1 y1 x2 y2) as [Hx Hy].
  cbv zeta in Hx, Hy.
  set (c := closestPointOnSegment cx cy x1 y1 x2 y2) in *.
  pose proof (Rle_0_sqr (cx - cp_x c)) as Qx.
  pose proof (Rle_0_sqr (cy - cp_y c)) as Qy. unfold Rsqr in Qx, Qy.
  assert (Hsq : forall u, rEff < u -> rEff * rEff < u * u).
  { intros u Hu. apply Rmult_le_0_lt_compat; lra. }
  destruct Hout as [H|[H|[H|H]]].
  - pose proof (Hsq (cp_x c - cx)).
    replace ((cp_x c - cx) * (cp_x c - cx))
      with ((cx - cp_x c) * (cx - cp_x c)) in * by ring. lra.
  - pose proof (Hsq (cx - cp_x c)). lra.
  - pose proof (Hsq (cp_y c - cy)).
    replace ((cp_y c - cy) * (cp_y c - cy))
      with ((cy - cp_y c) * (cy - cp_y c)) in * by ring. lra.
  - pose proof (Hsq (cy - cp_y c)). lra.
Qed.

Lemma no_hit_outside_bounding_box_witness :
  collide 50 50 15 platform = None.
Proof.
  apply (no_hit_outside_bounding_box platform 50 50 15 0 100 100 100 (Some 10)
           eq_refl).
  - cbn [thickness_of]. lra.
  - right. right. left. cbn [thickness_of].
    rewrite Rmin_left by lra. lra.
Defined.

(* ================================================================== *)
(** ** More on a step *)

Lemma step_stepFrame
  (state : State) (obstacles : list Obstacle) (opts : Opts) :
  step state obstacles opts = stepFrame (frame state opts) obstacles.
Proof. reflexivity. Qed.

(** The locals [dx], [dy] are dead after the bounds handling. *)
Lemma stepFrame_direction_dead
  (g st e tf tr r dx dy dx' dy' vx0 vy0 vxFor vyFor newX newY : R)
  (obstacles : list Obstacle) :
  stepFrame (mkFrame g st e tf tr r dx dy vx0 vy0 vxFor vyFor newX newY)
            obstacles
  = stepFrame (mkFrame g st e tf tr r dx' dy' vx0 vy0 vxFor vyFor newX newY)
              obstacles.
Proof.
  unfold stepFrame. cbn [f_newX f_newY f_r].
  destruct (checkCircleCollisions newX newY r obstacles) as [|h0 rest].
  - reflexivity.
  - unfold contactBranch, resolveContact.
    destruct (obstacleVelocity _ _) as [ox oy]. reflexivity.
Qed.

(** X7. When the state carries [vx] and [vy], its [dx], [dy] and
    [speed] are never read: any other values give the same result. *)
Theorem step_ignores_direction
  (state : State) (obstacles : list Obstacle) (opts : Opts)
  (dx dy speed a b : R) :
  s_vx state = Some a -> s_vy state = Some b ->
  step (with_direction state dx dy speed) obstacles opts
  = step state obstacles opts.
Proof.
  intros Ha Hb. rewrite !step_stepFrame.
  destruct state as [x y dx0 dy0 sp r vx vy].
  cbn [s_vx s_vy] in Ha, Hb. subst vx vy.
  unfold frame, with_direction.
  cbn [s_x s_y s_dx s_dy s_speed s_r s_vx s_vy Js.nullish].
  apply stepFrame_direction_dead.
Qed.

Lemma step_ignores_direction_witness :
  step (with_direction resting_body 1 0 7) [platform] default_opts
  = step resting_body [platform] default_opts.
Proof.
  exact (step_ignores_direction resting_body [platform] default_opts
           1 0 7 0 0 eq_refl eq_refl).
Defined.

(** X8. [opts.friction] is only the default of [tangentialFriction]:
    when the latter is given, the former has no effect. *)
Theorem friction_is_only_a_default
  (state : State) (obstacles : list Obstacle) (opts : Opts)
  (k : R) (f1 f2 : option R) :
  o_tangentialFriction opts = Some k ->
  step state obstacles (with_friction opts f1)
  = step state obstacles (with_friction opts f2).
Proof.
  intros Hk. rewrite !step_stepFrame.
  destruct opts as [g fr bo st e tf tr].
  cbn [o_tangentialFriction] in Hk. subst tf.
  reflexivity.
Qed.

Lemma friction_is_only_a_default_witness :
  step resting_body [platform]
       (with_friction (mkOpts None None None None None (Some 0.9) None)
                      (Some 0.5))
  = step resting_body [platform]
         (with_friction (mkOpts None None None None None (Some 0.9) None)
                        None).
Proof.
  exact (friction_is_only_a_default resting_body [platform]
           (mkOpts None None None None None (Some 0.9) None) 0.9
           (Some 0.5) None eq_refl).
Defined.

(** X9. Without any hit (in particular with an empty obstacle list)
    [step] reports no contact and commits the tentative position; the
    velocity becomes [(vx, vy + gravity)], or zero when its magnitude
    is below the stop threshold.  The position is advanced in both
    cases. *)
Theorem airborne_step
  (state : State) (obstacles : list Obstacle) (opts : Opts) :
  detected state obstacles opts = [] ->
  let res := step state obstacles opts in
  let vx := working_vx state in
  let vy := working_vy state + gravity_of opts in
  r_contact res = false /\
  (r_x res, r_y res) = tentative state opts /\
  ((Js.hypot vx vy < stopThreshold_of opts /\ stopped res) \/
   (~ Js.hypot vx vy < stopThreshold_of opts /\
    r_vx res = vx /\ r_vy res = vy /\ r_speed res = Js.hypot vx vy)).
Proof.
  intros E. cbv zeta. rewrite (step_airborne _ _ _ E).
  unfold airborne, settle.
  cbn [frame f_stopThreshold f_vxFor f_vyFor f_newX f_newY].
  fold (working_vx state) (working_vy state) (gravity_of opts)
       (stopThreshold_of opts).
  destruct (Rlt_dec _ _) as [L|N]; cbn.
  - split; [reflexivity|]. split; [reflexivity|]. left.
    split; [exact L|]. repeat split.
  - split; [reflexivity|]. split; [reflexivity|]. right.
    repeat split. exact N.
Qed.

Lemma airborne_step_witness :
  r_contact (step edge_body [] arena_opts) = false /\
  (r_x (step edge_body [] arena_opts), r_y (step edge_body [] arena_opts))
  = tentative edge_body arena_opts.
Proof.
  destruct (airborne_step edge_body [] arena_opts eq_refl) as (H1 & H2 & _).
  split; assumption.
Defined.

(** X10. Ties are broken by obstacle order: the dominant hit is the
    first hit of greatest penetration, every earlier hit penetrating
    strictly less. *)
Theorem dominant_is_first_maximal (h0 : Hit) (rest : list Hit) :
  let h := dominant h0 rest in
  exists before after,
    h0 :: rest = before ++ h :: after /\
    Forall (fun a => h_penetration a < h_penetration h) before /\
    Forall (fun b => h_penetration b <= h_penetration h) after.
Proof.
  cbv zeta. unfold dominant. revert h0.
  induction rest as [|a l IH]; intros h0.
  - exists [], []. cbn. repeat split; constructor.
  - destruct (IH a) as (before & after & Hl & Hb & Ha).
    cbn [sort fold_right] in *. fold (sort by_penetration_desc l) in *.
    set (sl := insert_sorted by_penetration_desc a (sort by_penetration_desc l))
      in *.
    destruct sl as [|m ms] eqn:Es.
    + exfalso. assert (In a []) as F; [|destruct F].
      rewrite <- Es. unfold sl. apply In_insert_sorted. left. reflexivity.
    + cbn [hd] in *. cbn [insert_sorted].
      destruct (Rlt_dec 0 (by_penetration_desc h0 m)) as [L|N];
        unfold by_penetration_desc in *; rewrite !or_else_zero in *;
        cbn [hd].
      * exists (h0 :: before), after. rewrite Hl. split; [reflexivity|].
        split; [constructor; [lra|exact Hb]|exact Ha].
      * exists [], (a :: l). split; [reflexivity|]. split; [constructor|].
        rewrite Hl. apply Forall_app. split.
        -- eapply Forall_impl; [|exact Hb]. cbn. intros; lra.
        -- constructor; [lra|]. eapply Forall_impl; [|exact Ha].
           cbn. intros; lra.
Qed.

(** Every detected hit is the hit of the contract for its source. *)
Lemma hit_is_contract_hit (cx cy cr : R) (obstacles : list Obstacle)
  (h : Hit) :
  In h (checkCircleCollisions cx cy cr obstacles) ->
  exists k c rEff,
    In (h_source h) obstacles /\
    contact_geometry cx cy cr (h_source h) = Some (k, c, rEff) /\
    h = contract_hit cx cy (h_source h) k c rEff /\
    distance cx cy (cp_x c) (cp_y c) * distance cx cy (cp_x c) (cp_y c)
    <= rEff * rEff.
Proof.
  intros Hin. apply In_checkCircleCollisions in Hin.
  destruct Hin as (o & Ho & Hc).
  pose proof (collide_source _ _ _ _ _ Hc) as Es. rewrite Es.
  rewrite collide_contract in Hc.
  destruct (contact_geometry cx cy cr o) as [[[k c] rEff]|]; [|discriminate].
  cbv zeta in Hc. destruct (Rle_dec _ _) as [L|_]; [|discriminate].
  exists k, c, rEff. injection Hc as Hh.
  repeat split; [exact Ho| |exact L]. rewrite <- Hh.
  unfold contract_hit. cbv zeta. cbn [h_source]. reflexivity.
Qed.

Lemma resolveContact_zero_normal (f : Frame) (h : Hit) :
  h_nx h = 0 -> h_ny h = 0 ->
  c_outVx (resolveContact f h) = 0 /\ c_outVy (resolveContact f h) = 0.
Proof.
  intros Hx Hy. unfold resolveContact.
  destruct (obstacleVelocity (h_source h) (h_cp h)) as [ox oy].
  cbn [c_outVx c_outVy]. rewrite Hx, Hy.
  assert (Hl : Js.or_else (Js.hypot (- 0) 0) 1 <> 0)
    by (apply or_else_nonzero; lra).
  set (len := Js.or_else (Js.hypot (- 0) 0) 1) in *.
  assert (T1 : - 0 / len = 0) by (field; exact Hl).
  assert (T2 : 0 / len = 0) by (field; exact Hl).
  rewrite T1, T2.
  destruct (Rlt_dec _ 0) as [L|_]; split; ring.
Qed.

(** X11. A dominant hit at distance exactly 0 has the zero normal: the
    body is not pushed out, it stays at the tentative position, and it
    is returned with zero velocity and zero speed, in contact. *)
Theorem zero_distance_hit_freezes
  (state : State) (obstacles : list Obstacle) (opts : Opts)
  (h0 : Hit) (rest : list Hit) :
  detected state obstacles opts = h0 :: rest ->
  h_dist (dominant h0 rest) = 0 ->
  let res := step state obstacles opts in
  (r_x res, r_y res) = tentative state opts /\
  r_vx res = 0 /\ r_vy res = 0 /\ r_speed res = 0 /\
  r_contact res = true.
Proof.
  intros E Hd. cbv zeta. rewrite (step_contact _ _ _ _ _ E).
  set (h := dominant h0 rest) in *. set (f := frame state opts).
  assert (Hin : In h (detected state obstacles opts))
    by (rewrite E; apply dominant_In).
  destruct (hit_is_contract_hit _ _ _ _ _ Hin)
    as (k & c & rEff & _ & _ & Hh & _).
  assert (Hn : h_nx h = 0 /\ h_ny h = 0).
  { rewrite Hh in Hd |- *. unfold contract_hit in *. cbv zeta in *.
    cbn [h_dist h_nx h_ny] in *.
    destruct (Req_dec_T _ 0) as [_|N]; [split; reflexivity|contradiction]. }
  destruct Hn as [Hx Hy].
  destruct (resolveContact_zero_normal f h Hx Hy) as [Ox Oy].
  destruct (resolveContact_normal f h) as [Nx Ny].
  unfold contactBranch, settle. rewrite Ox, Oy, Nx, Ny, Hx, Hy, hypot_0_0.
  change (f_newX f) with (fst (tentative state opts)).
  destruct (tentative state opts) as [px py]. cbn [fst snd].
  destruct (Rlt_dec 0 _);
    cbn [r_x r_y r_vx r_vy r_speed r_contact k_vx k_vy k_speed];
    (split; [f_equal; ring|repeat split]).
Qed.

Lemma static_contact_point_velocity (o : Obstacle) (c : ClosestPoint) :
  static o -> contact_point_velocity o c = (0, 0).
Proof.
  unfold static, contact_point_velocity. intros [-> | ->]; [reflexivity|].
  f_equal; ring.
Qed.

(** X12. Resting contact never bounces: when the dominant hit is on a
    static obstacle, the relative normal velocity is not below -0.10
    and the gravity-inclusive velocity does not separate, the returned
    velocity has no component along the normal. *)
Theorem resting_contact_no_bounce
  (state : State) (obstacles : list Obstacle) (opts : Opts)
  (h0 : Hit) (rest : list Hit) :
  detected state obstacles opts = h0 :: rest ->
  let h := dominant h0 rest in
  let res := step state obstacles opts in
  static (h_source h) ->
  - 0.10 <= dot (working_vx state) (working_vy state) (h_nx h) (h_ny h) ->
  dot (working_vx state) (working_vy state + gravity_of opts)
      (h_nx h) (h_ny h) <= 0 ->
  dot (r_vx res) (r_vy res) (h_nx h) (h_ny h) = 0.
Proof.
  intros E h res Hs Hrel Hgrav. unfold res.
  rewrite (step_contact _ _ _ _ _ E). fold h.
  set (f := frame state opts).
  pose proof (resolveContact_normal_scalar f h) as Hvn. cbv zeta in Hvn.
  rewrite (static_contact_point_velocity _ _ Hs) in Hvn.
  cbn [fst snd] in Hvn.
  assert (Hvn0 : c_new_vn_scalar (resolveContact f h) = 0).
  { rewrite Hvn. unfold normal_policy.
    change (f_vx0 f) with (working_vx state).
    change (f_vy0 f) with (working_vy state).
    change (f_vxFor f) with (working_vx state).
    change (f_vyFor f) with (working_vy state + gravity_of opts).
    unfold dot in *.
    destruct (Rlt_dec _ (- 0.10)) as [L|_]; [lra|].
    destruct (Rlt_dec 0 _) as [L|_]; [lra|ring]. }
  pose proof (resolveContact_outgoing f h) as Hout. cbv zeta in Hout.
  rewrite Hvn0 in Hout.
  pose proof (resolveContact_tangent f h) as Ht.
  pose proof (tangent_perpendicular (h_nx h) (h_ny h)) as Hp.
  rewrite <- Ht in Hp. cbn [fst snd] in Hp.
  set (c := resolveContact f h) in *.
  assert (Hd : dot (c_outVx c) (c_outVy c) (h_nx h) (h_ny h) = 0).
  { unfold recombine in Hout.
    assert (Hz : dot (c_tx c * c_vAlong c + h_nx h * 0)
                     (c_ty c * c_vAlong c + h_ny h * 0) (h_nx h) (h_ny h) = 0).
    { unfold dot.
      replace ((c_tx c * c_vAlong c + h_nx h * 0) * h_nx h
               + (c_ty c * c_vAlong c + h_ny h * 0) * h_ny h)
        with (c_vAlong c * (c_tx c * h_nx h + c_ty c * h_ny h)) by ring.
      rewrite Hp. ring. }
    rewrite Hz in Hout. destruct (Rlt_dec 0 0) as [L|_]; [lra|].
    injection Hout as -> ->. exact Hz. }
  unfold contactBranch. cbv zeta. cbn [r_vx r_vy]. fold c.
  destruct (settle_velocity (f_stopThreshold f) (c_outVx c) (c_outVy c))
    as [[-> ->]|[-> ->]]; [unfold dot; ring|exact Hd].
Qed.

(* ================================================================== *)
(** ** A flat static segment *)

Lemma hypot_vertical (b : R) : 0 <= b -> Js.hypot 0 b = b.
Proof.
  intros Hb. unfold Js.hypot. replace (0 * 0 + b * b) with (b * b) by ring.
  apply sqrt_square. exact Hb.
Qed.

Lemma tangent_of_up : tangent_of 0 (- 1) = (1, 0).
Proof.
  unfold tangent_of.
  assert (H : Js.hypot (- - 1) 0 = 1).
  { unfold Js.hypot. replace (- - 1 * - - 1 + 0 * 0) with 1 by ring.
    apply sqrt_1. }
  rewrite H. unfold Js.or_else. destruct (Req_dec_T 1 0); [lra|].
  f_equal; field.
Qed.

(** The hit of a body above a horizontal segment, within reach. *)
Lemma flat_segment_collide
  (o : Obstacle) (x1 x2 py cx cy cr : R) (thickness : option R) :
  shape o = Segment x1 py x2 py thickness ->
  x1 < x2 -> x1 <= cx <= x2 ->
  py - (cr + thickness_of thickness / 2) <= cy < py ->
  exists h,
    collide cx cy cr o = Some h /\ h_source h = o /\
    h_nx h = 0 /\ h_ny h = - 1 /\ h_dist h = py - cy /\
    h_penetration h = cr + thickness_of thickness / 2 - (py - cy).
Proof.
  intros Hs Hx Hcx Hcy.
  set (rEff := cr + thickness_of thickness / 2) in *.
  set (t := (cx - x1) / (x2 - x1)).
  assert (Et : t * (x2 - x1) = cx - x1) by (unfold t; field; lra).
  assert (Ht : 0 <= t <= 1).
  { split; apply (Rmult_le_reg_r (x2 - x1)); try lra. }
  assert (Hc : closestPointOnSegment cx cy x1 py x2 py
               = mkCP (x1 + (x2 - x1) * t) (py + (py - py) * t) (Some t)).
  { apply closestPointOnSegment_at; [|exact Ht|].
    - pose proof (Rle_0_sqr (x2 - x1)) as Q. unfold Rsqr in Q.
      assert (0 < (x2 - x1) * (x2 - x1)) by (apply Rmult_lt_0_compat; lra).
      lra.
    - replace ((cx - x1) * (x2 - x1)) with (t * (x2 - x1) * (x2 - x1))
        by (rewrite Et; ring). ring. }
  set (c := mkCP (x1 + (x2 - x1) * t) (py + (py - py) * t) (Some t)) in *.
  assert (Hcx0 : cx - cp_x c = 0) by (unfold c; cbn [cp_x]; lra).
  assert (Hcy0 : cy - cp_y c = - (py - cy)) by (unfold c; cbn [cp_y]; lra).
  assert (Hg : contact_geometry cx cy cr o = Some (KSegment, c, rEff)).
  { unfold contact_geometry. rewrite Hs, Hc. reflexivity. }
  assert (Hd : distance cx cy (cp_x c) (cp_y c) = py - cy).
  { unfold distance. rewrite Hcx0, Hcy0.
    unfold Js.hypot.
    replace (0 * 0 + - (py - cy) * - (py - cy)) with ((py - cy) * (py - cy))
      by ring.
    apply sqrt_square. lra. }
  eexists. split.
  - apply (collide_hit _ _ _ _ _ _ _ Hg). rewrite Hcx0, Hcy0.
    assert ((py - cy) * (py - cy) <= rEff * rEff)
      by (apply Rmult_le_compat; lra).
    lra.
  - unfold contract_hit. cbv zeta.
    cbn [h_source h_nx h_ny h_dist h_penetration].
    rewrite Hd, Hcx0, Hcy0.
    destruct (Req_dec_T (py - cy) 0) as [E|N]; [lra|].
    split; [reflexivity|]. split; [field; exact N|].
    split; [field; exact N|]. split; reflexivity.
Qed.

(** The outgoing velocity on a static surface of normal [(0, -1)]. *)
Lemma resolveContact_flat (f : Frame) (h : Hit) :
  h_nx h = 0 -> h_ny h = - 1 -> static (h_source h) ->
  let vn := normal_policy (- f_vy0 f) 0 (- f_vyFor f) (f_restitution f) in
  c_outVx (resolveContact f h)
  = f_vx0 f * (f_tangentialFriction f * (1 - f_tangentialRetention f)
               + f_tangentialRetention f) /\
  c_outVy (resolveContact f h) = - Rmax 0 vn.
Proof.
  intros Hx Hy Hs. cbv zeta.
  pose proof (resolveContact_normal_scalar f h) as Hvn.
  pose proof (resolveContact_tangential_scalar f h) as Hvt.
  pose proof (resolveContact_outgoing f h) as Hout.
  pose proof (resolveContact_tangent f h) as Ht.
  cbv zeta in Hvn, Hvt, Hout.
  rewrite (static_contact_point_velocity _ _ Hs) in Hvn, Hvt.
  rewrite Hx, Hy in *. rewrite tangent_of_up in *.
  cbn [fst snd] in Hvn, Hvt.
  injection Ht as Htx Hty. rewrite Htx, Hty in Hout.
  set (c := resolveContact f h) in *.
  assert (Evt : c_vAlong c
                = f_vx0 f * (f_tangentialFriction f
                             * (1 - f_tangentialRetention f)
                             + f_tangentialRetention f)).
  { rewrite Hvt. unfold anti_creep, tangential_blend, dot.
    destruct (Rlt_dec (Rabs _) 0.02); [|ring].
    destruct (Rlt_dec _ 0) as [L|_]; [exfalso; lra|ring]. }
  assert (Evn : c_new_vn_scalar c
                = normal_policy (- f_vy0 f) 0 (- f_vyFor f) (f_restitution f)).
  { rewrite Hvn. unfold dot. f_equal; ring. }
  rewrite Evn, Evt in Hout. unfold recombine, dot in Hout.
  set (vn := normal_policy (- f_vy0 f) 0 (- f_vyFor f) (f_restitution f)) in *.
  set (vA := f_vx0 f * (f_tangentialFriction f * (1 - f_tangentialRetention f)
                        + f_tangentialRetention f)) in *.
  destruct (Rlt_dec _ 0) as [L|N]; injection Hout as -> ->.
  - rewrite Rmax_left by lra. split; ring.
  - rewrite Rmax_right by lra. split; ring.
Qed.

(** A step of a body above a flat static segment, within reach: the
    dominant hit and where the body is put. *)
Lemma flat_segment_step
  (state : State) (opts : Opts) (o : Obstacle)
  (x1 x2 py : R) (thickness : option R) :
  shape o = Segment x1 py x2 py thickness ->
  static o -> x1 < x2 ->
  let rEff := s_r state + thickness_of thickness / 2 in
  let p := tentative state opts in
  x1 <= fst p <= x2 ->
  py - rEff <= snd p < py ->
  exists h,
    detected state [o] opts = [h] /\
    h_nx h = 0 /\ h_ny h = - 1 /\ static (h_source h) /\
    r_contact (step state [o] opts) = true /\
    r_x (step state [o] opts) = fst p /\
    r_y (step state [o] opts) = py - rEff.
Proof.
  intros Hs Hst Hx rEff p Hpx Hpy.
  destruct (flat_segment_collide o x1 x2 py (fst p) (snd p) (s_r state)
              thickness Hs Hx Hpx Hpy)
    as (h & Hc & Hsrc & Hnx & Hny & Hd & Hpen).
  assert (E : detected state [o] opts = [h]).
  { unfold detected. fold p. cbn [checkCircleCollisions]. rewrite Hc.
    reflexivity. }
  exists h. split; [exact E|]. split; [exact Hnx|]. split; [exact Hny|].
  split; [rewrite Hsrc; exact Hst|].
  rewrite (step_contact _ _ _ _ _ E), dominant_single.
  unfold contactBranch. cbn [r_contact r_x r_y].
  destruct (resolveContact_normal (frame state opts) h) as [-> ->].
  rewrite resolveContact_pen, Hnx, Hny, Hpen. fold rEff.
  rewrite Rmax_right by lra.
  change (f_newX (frame state opts)) with (fst p).
  change (snd (tentative state opts)) with (snd p).
  split; [reflexivity|]. split; ring.
Qed.

(** X13. Landing softly on a flat static segment: a body whose
    tentative centre is above the segment within the effective radius,
    with downward speed at most 0.10 and not rising after gravity, is
    put exactly one effective radius above the segment, in contact,
    with no vertical velocity; its horizontal velocity is the incoming
    one times [tangentialFriction * (1 - retention) + retention], or
    zero when that is below the stop threshold.  A body without
    horizontal velocity comes to rest. *)
Theorem rest_on_flat_segment
  (state : State) (opts : Opts) (o : Obstacle)
  (x1 x2 py : R) (thickness : option R) :
  shape o = Segment x1 py x2 py thickness ->
  static o -> x1 < x2 ->
  let rEff := s_r state + thickness_of thickness / 2 in
  let p := tentative state opts in
  x1 <= fst p <= x2 ->
  py - rEff <= snd p < py ->
  working_vy state <= 0.10 ->
  0 <= working_vy state + gravity_of opts ->
  let res := step state [o] opts in
  r_contact res = true /\ r_x res = fst p /\ r_y res = py - rEff /\
  r_vy res = 0 /\
  (r_vx res = working_vx state * tangential_factor opts \/
   (r_vx res = 0 /\ r_speed res = 0)) /\
  (working_vx state = 0 -> r_vx res = 0 /\ r_speed res = 0).
Proof.
  intros Hs Hst Hx rEff p Hpx Hpy Hslow Hpress res.
  destruct (flat_segment_step state opts o x1 x2 py thickness Hs Hst Hx Hpx Hpy)
    as (h & E & Hnx & Hny & Hsrc & Hc & Hrx & Hry).
  split; [exact Hc|]. split; [exact Hrx|]. split; [exact Hry|].
  unfold res. rewrite (step_contact _ _ _ _ _ E), dominant_single.
  destruct (resolveContact_flat (frame state opts) h Hnx Hny Hsrc) as [Ox Oy].
  cbv zeta in Oy.
  assert (Hvn : normal_policy (- f_vy0 (frame state opts)) 0
                  (- f_vyFor (frame state opts))
                  (f_restitution (frame state opts)) = 0).
  { unfold normal_policy.
    change (f_vy0 (frame state opts)) with (working_vy state).
    change (f_vyFor (frame state opts))
      with (working_vy state + gravity_of opts).
    destruct (Rlt_dec _ (- 0.10)); [lra|].
    destruct (Rlt_dec 0 _); [lra|reflexivity]. }
  rewrite Hvn, Rmax_left in Oy by lra.
  replace (- 0) with 0 in Oy by ring.
  assert (Ox' : c_outVx (resolveContact (frame state opts) h)
                = working_vx state * tangential_factor opts) by exact Ox.
  unfold contactBranch, settle. rewrite Ox', Oy.
  destruct (Rlt_dec _ _) as [L|N]; cbn [r_vx r_vy r_speed k_vx k_vy k_speed].
  - split; [reflexivity|]. split; [right; split; reflexivity|].
    intros _. split; reflexivity.
  - split; [reflexivity|]. split; [left; reflexivity|].
    intros Hv0. rewrite Hv0, Rmult_0_l. split; [reflexivity|apply hypot_0_0].
Qed.

Lemma rest_on_flat_segment_witness :
  let res := step resting_body [floor_segment] default_opts in
  r_contact res = true /\
  r_y res = 100 - (15 + thickness_of (Some 10) / 2) /\
  r_vx res = 0 /\ r_vy res = 0 /\ r_speed res = 0.
Proof.
  assert (H := rest_on_flat_segment resting_body default_opts floor_segment
                 0 100 100 (Some 10) eq_refl (or_introl eq_refl)).
  cbv zeta in H.
  unfold tentative, working_vx, working_vy, gravity_of in H.
  cbn [fst snd resting_body default_opts s_x s_y s_r s_vx s_vy o_gravity
       thickness_of] in H.
  destruct H as (H1 & _ & H3 & H4 & _ & H6); try lra.
  destruct H6 as [H7 H8]; [reflexivity|].
  cbv zeta. cbn [thickness_of]. repeat split; assumption.
Defined.

(** X14. Bouncing on a flat static segment: a body whose tentative
    centre is above the segment within the effective radius and that
    comes down faster than 0.10 leaves with its vertical velocity
    reversed and scaled by the (non-negative) restitution, its
    horizontal velocity scaled by
    [tangentialFriction * (1 - retention) + retention], one effective
    radius above the segment; unless that velocity is below the stop
    threshold, in which case it is stopped. *)
Theorem bounce_on_flat_segment
  (state : State) (opts : Opts) (o : Obstacle)
  (x1 x2 py : R) (thickness : option R) :
  shape o = Segment x1 py x2 py thickness ->
  static o -> x1 < x2 ->
  let rEff := s_r state + thickness_of thickness / 2 in
  let p := tentative state opts in
  x1 <= fst p <= x2 ->
  py - rEff <= snd p < py ->
  0.10 < working_vy state ->
  0 <= restitution_of opts ->
  let res := step state [o] opts in
  let ox := working_vx state * tangential_factor opts in
  let oy := - (restitution_of opts * working_vy state) in
  r_contact res = true /\ r_x res = fst p /\ r_y res = py - rEff /\
  ((Js.hypot ox oy < stopThreshold_of opts /\ stopped res) \/
   (~ Js.hypot ox oy < stopThreshold_of opts /\
    r_vx res = ox /\ r_vy res = oy /\ r_speed res = Js.hypot ox oy)).
Proof.
  intros Hs Hst Hx rEff p Hpx Hpy Hfast He res ox oy.
  destruct (flat_segment_step state opts o x1 x2 py thickness Hs Hst Hx Hpx Hpy)
    as (h & E & Hnx & Hny & Hsrc & Hc & Hrx & Hry).
  split; [exact Hc|]. split; [exact Hrx|]. split; [exact Hry|].
  unfold res. rewrite (step_contact _ _ _ _ _ E), dominant_single.
  destruct (resolveContact_flat (frame state opts) h Hnx Hny Hsrc) as [Ox Oy].
  cbv zeta in Oy.
  assert (Hvn : normal_policy (- f_vy0 (frame state opts)) 0
                  (- f_vyFor (frame state opts))
                  (f_restitution (frame state opts))
                = restitution_of opts * working_vy state).
  { unfold normal_policy.
    change (f_vy0 (frame state opts)) with (working_vy state).
    change (f_restitution (frame state opts)) with (restitution_of opts).
    destruct (Rlt_dec _ (- 0.10)); [ring|lra]. }
  rewrite Hvn, Rmax_right in Oy
    by (apply Rmult_le_pos; lra).
  assert (Ox' : c_outVx (resolveContact (frame state opts) h) = ox)
    by exact Ox.
  unfold contactBranch, settle. rewrite Ox', Oy. fold oy.
  change (f_stopThreshold (frame state opts)) with (stopThreshold_of opts).
  destruct (Rlt_dec _ _) as [L|N].
  - left. split; [exact L|]. repeat split.
  - right. split; [exact N|]. repeat split.
Qed.

Lemma bounce_on_flat_segment_witness :
  let res := step falling_body [floor_segment] default_opts in
  r_contact res = true /\
  r_x res = 50 + 2 /\
  r_y res = 100 - (15 + thickness_of (Some 10) / 2).
Proof.
  assert (H := bounce_on_flat_segment falling_body default_opts floor_segment
                 0 100 100 (Some 10) eq_refl (or_introl eq_refl)).
  cbv zeta in H.
  unfold tentative, working_vx, working_vy, gravity_of, restitution_of in H.
  cbn [fst snd falling_body default_opts s_x s_y s_r s_vx s_vy o_gravity
       o_restitution thickness_of] in H.
  destruct H as (H1 & H2 & H3 & _); try lra.
  cbv zeta. cbn [thickness_of]. repeat split; assumption.
Defined.

(** The scenarios of the two properties before. *)
Lemma resting_on_floor_detected :
  exists h,
    detected resting_body [floor_segment] default_opts = [h] /\
    h_nx h = 0 /\ h_ny h = - 1 /\ static (h_source h).
Proof.
  assert (H := flat_segment_step resting_body default_opts floor_segment
                 0 100 100 (Some 10) eq_refl (or_introl eq_refl)).
  cbv zeta in H.
  unfold tentative, working_vx, working_vy, gravity_of in H.
  cbn [fst snd resting_body default_opts s_x s_y s_r s_vx s_vy o_gravity
       thickness_of] in H.
  destruct H as (h & E & Hnx & Hny & Hs & _); try lra.
  exists h. repeat split; assumption.
Qed.

Lemma grazing_detected :
  exists h,
    detected grazing_body [floor_segment] default_opts = [h] /\ h_dist h = 0.
Proof.
  assert (Hd : 0 <> 100 \/ 100 <> 100) by (left; lra).
  assert (Hs : 0 <= 0.5 <= 1) by lra.
  destruct (collide_centre_on_segment floor_segment 0 100 100 100 15 0.5
              (Some 10) eq_refl Hd Hs)
    as (h & Hh & _ & _ & _ & H0 & _).
  cbv zeta in Hh. exists h. split; [|exact H0].
  unfold detected, tentative, working_vx, working_vy, gravity_of.
  cbn [fst snd grazing_body default_opts s_x s_y s_r s_vx s_vy o_gravity
       checkCircleCollisions].
  replace (50 + 0) with (0 + (100 - 0) * 0.5) by lra.
  replace (99.8 + (0 + 0.2)) with (100 + (100 - 100) * 0.5) by lra.
  rewrite Hh. reflexivity.
Qed.

Lemma zero_distance_hit_freezes_witness :
  let res := step grazing_body [floor_segment] default_opts in
  (r_x res, r_y res) = tentative grazing_body default_opts /\
  r_vx res = 0 /\ r_vy res = 0 /\ r_speed res = 0 /\
  r_contact res = true.
Proof.
  destruct grazing_detected as (h & E & H0).
  exact (zero_distance_hit_freezes grazing_body [floor_segment] default_opts
           h [] E H0).
Defined.

Lemma resting_contact_no_bounce_witness :
  let res := step resting_body [floor_segment] default_opts in
  dot (r_vx res) (r_vy res) 0 (- 1) = 0.
Proof.
  destruct resting_on_floor_detected as (h & E & Hnx & Hny & Hs).
  assert (H := resting_contact_no_bounce resting_body [floor_segment]
                 default_opts h [] E).
  cbv zeta in H. rewrite dominant_single, Hnx, Hny in H.
  cbv zeta. apply H; [exact Hs| |];
    unfold dot, working_vx, working_vy, gravity_of; cbn; lra.
Defined.

(* ================================================================== *)
(** ** Non-penetration after the push-out *)

Lemma clamp_eval (u : R) :
  (u <= 0 -> Js.max 0 (Js.min 1 u) = 0) /\
  (1 <= u -> Js.max 0 (Js.min 1 u) = 1) /\
  (0 <= u <= 1 -> Js.max 0 (Js.min 1 u) = u).
Proof.
  destruct (clamp_cases u) as [[? ->]|[[? ->]|[? ->]]]; repeat split; lra.
Qed.

Lemma hypot_scale (k a b : R) :
  0 <= k -> Js.hypot (k * a) (k * b) = k * Js.hypot a b.
Proof.
  intros Hk. unfold Js.hypot.
  replace (k * a * (k * a) + k * b * (k * b))
    with ((k * k) * (a * a + b * b)) by ring.
  rewrite sqrt_mult_alt by (apply Rle_0_sqr).
  rewrite sqrt_square by exact Hk. reflexivity.
Qed.

(** Moving the query point along the ray from its closest point keeps
    the closest point. *)
Lemma closestPointOnSegment_ray (px py x1 y1 x2 y2 k : R) :
  0 <= k ->
  let c := closestPointOnSegment px py x1 y1 x2 y2 in
  closestPointOnSegment (cp_x c + k * (px - cp_x c))
                        (cp_y c + k * (py - cp_y c)) x1 y1 x2 y2 = c.
Proof.
  intros Hk. cbv zeta.
  destruct (Req_dec_T ((x2 - x1) * (x2 - x1) + (y2 - y1) * (y2 - y1)) 0)
    as [E|N].
  - destruct (closestPointOnSegment_degenerate px py _ _ _ _ E) as (-> & _).
    apply (closestPointOnSegment_degenerate _ _ _ _ _ _ E).
  - rewrite (closestPointOnSegment_proper px py _ _ _ _ N).
    cbn [cp_x cp_y].
    set (t0 := projection px py x1 y1 x2 y2).
    set (t := Js.max 0 (Js.min 1 t0)).
    rewrite (closestPointOnSegment_proper _ _ _ _ _ _ N).
    assert (Hp : projection (x1 + (x2 - x1) * t + k * (px - (x1 + (x2 - x1) * t)))
                            (y1 + (y2 - y1) * t + k * (py - (y1 + (y2 - y1) * t)))
                            x1 y1 x2 y2
                 = t + k * (t0 - t)).
    { unfold t0, projection. field. exact N. }
    rewrite Hp.
    assert (Ht : Js.max 0 (Js.min 1 (t + k * (t0 - t))) = t).
    { destruct (clamp_eval (t + k * (t0 - t))) as (C0 & C1 & Cm).
      destruct (clamp_cases t0) as [[H E]|[[H E]|[H E]]]; fold t in E.
      - rewrite E. replace (t0 + k * (t0 - t0)) with t0 by ring.
        fold t. exact E.
      - rewrite E in *. apply C0.
        assert (0 <= k * (- t0)) by (apply Rmult_le_pos; lra). lra.
      - rewrite E in *. apply C1.
        assert (0 <= k * (t0 - 1)) by (apply Rmult_le_pos; lra). lra. }
    rewrite Ht. reflexivity.
Qed.

(** The same for the clamp into a box side. *)
Lemma clamp_ray (lo hi v k : R) :
  0 <= k ->
  clamp lo hi (clamp lo hi v + k * (v - clamp lo hi v)) = clamp lo hi v.
Proof.
  intros Hk. unfold clamp at 2 3 4. unfold Rmax, Rmin.
  destruct (Rle_dec v hi) as [Lv|Nv]; destruct (Rle_dec lo _) as [Ll|Nl].
  - replace (v + k * (v - v)) with v by ring.
    unfold clamp. rewrite Rmin_left, Rmax_right by lra. reflexivity.
  - assert (0 <= k * (lo - v)) by (apply Rmult_le_pos; lra).
    unfold clamp. apply Rmax_left.
    eapply Rle_trans; [apply Rmin_l|]. lra.
  - assert (0 <= k * (v - hi)) by (apply Rmult_le_pos; lra).
    unfold clamp. rewrite Rmin_right by lra. apply Rmax_right. exact Ll.
  - unfold clamp. apply Rmax_left.
    eapply Rle_trans; [apply Rmin_r|]. lra.
Qed.

(** X15. After the push-out the body touches the dominant obstacle and
    does not overlap it: if the dominant hit has a non-zero distance
    and a non-negative penetration, then at the returned position the
    closest point of that obstacle is the same as before and lies
    exactly one effective radius from the centre. *)
Theorem pushed_out_to_touch
  (state : State) (obstacles : list Obstacle) (opts : Opts)
  (h0 : Hit) (rest : list Hit) :
  detected state obstacles opts = h0 :: rest ->
  let h := dominant h0 rest in
  let res := step state obstacles opts in
  h_dist h <> 0 -> 0 <= h_penetration h ->
  exists k c rEff,
    contact_geometry (r_x res) (r_y res) (s_r state) (h_source h)
    = Some (k, c, rEff) /\
    cp_x c = cp_x (h_cp h) /\ cp_y c = cp_y (h_cp h) /\
    distance (r_x res) (r_y res) (cp_x c) (cp_y c) = rEff.
Proof.
  intros E h res Hd Hpen.
  assert (Hin : In h (detected state obstacles opts))
    by (rewrite E; apply dominant_In).
  destruct (hit_is_contract_hit _ _ _ _ _ Hin)
    as (k & c & rEff & _ & Hg & Hh & _).
  set (cx := fst (tentative state opts)) in *.
  set (cy := snd (tentative state opts)) in *.
  set (d := distance cx cy (cp_x c) (cp_y c)) in *.
  assert (Hdist : h_dist h = d) by (rewrite Hh; reflexivity).
  assert (Hcp : h_cp h = c) by (rewrite Hh; reflexivity).
  assert (Hp : h_penetration h = rEff - d) by (rewrite Hh; reflexivity).
  assert (Hd0 : d <> 0) by (rewrite <- Hdist; exact Hd).
  assert (Hdpos : 0 < d).
  { pose proof (hypot_nonneg (cx - cp_x c) (cy - cp_y c)). fold (distance cx cy (cp_x c) (cp_y c)) in H. fold d in H. lra. }
  assert (Hn : h_nx h = (cx - cp_x c) / d /\ h_ny h = (cy - cp_y c) / d).
  { rewrite Hh. unfold contract_hit. cbv zeta. cbn [h_nx h_ny]. fold d.
    destruct (Req_dec_T d 0); [contradiction|]. split; reflexivity. }
  destruct Hn as [Hnx Hny].
  set (lam := rEff / d).
  assert (Hlam : 0 <= lam).
  { unfold lam. apply Rmult_le_pos; [lra|].
    apply Rlt_le, Rinv_0_lt_compat. exact Hdpos. }
  assert (Hrx : r_x res = cp_x c + lam * (cx - cp_x c)).
  { unfold res. rewrite (step_contact _ _ _ _ _ E). fold h.
    unfold contactBranch. cbn [r_x].
    destruct (resolveContact_normal (frame state opts) h) as [-> _].
    rewrite resolveContact_pen, Rmax_right by exact Hpen.
    rewrite Hnx, Hp. unfold lam.
    change (f_newX (frame state opts)) with cx. field. exact Hd0. }
  assert (Hry : r_y res = cp_y c + lam * (cy - cp_y c)).
  { unfold res. rewrite (step_contact _ _ _ _ _ E). fold h.
    unfold contactBranch. cbn [r_y].
    destruct (resolveContact_normal (frame state opts) h) as [_ ->].
    rewrite resolveContact_pen, Rmax_right by exact Hpen.
    rewrite Hny, Hp. unfold lam.
    change (snd (tentative state opts)) with cy. field. exact Hd0. }
  rewrite Hrx, Hry, Hcp.
  assert (Hdist' : forall c',
             cp_x c' = cp_x c -> cp_y c' = cp_y c ->
             distance (cp_x c + lam * (cx - cp_x c))
                      (cp_y c + lam * (cy - cp_y c)) (cp_x c') (cp_y c')
             = rEff).
  { intros c' -> ->. unfold distance.
    replace (cp_x c + lam * (cx - cp_x c) - cp_x c)
      with (lam * (cx - cp_x c)) by ring.
    replace (cp_y c + lam * (cy - cp_y c) - cp_y c)
      with (lam * (cy - cp_y c)) by ring.
    rewrite hypot_scale by exact Hlam.
    fold (distance cx cy (cp_x c) (cp_y c)). fold d.
    unfold lam. field. exact Hd0. }
  unfold contact_geometry in Hg |- *.
  destruct (shape (h_source h)) as [x1 y1 x2 y2 th|x y w hh|];
    [| |discriminate].
  - injection Hg as <- Hc <-.
    pose proof (closestPointOnSegment_ray cx cy x1 y1 x2 y2 lam Hlam) as Hray.
    cbv zeta in Hray. rewrite Hc in Hray. rewrite Hray.
    exists KSegment, c, (s_r state + thickness_of th / 2).
    split; [reflexivity|]. split; [reflexivity|]. split; [reflexivity|].
    apply Hdist'; reflexivity.
  - injection Hg as <- Hc <-.
    eexists KRect, _, (s_r state). split; [reflexivity|].
    rewrite <- Hc. cbn [cp_x cp_y].
    rewrite !clamp_ray by exact Hlam.
    split; [reflexivity|]. split; [reflexivity|].
    rewrite <- Hc in Hdist'. cbn [cp_x cp_y] in Hdist'.
    apply (Hdist' (mkCP (clamp x (x + w) cx) (clamp y (y + hh) cy) None));
      reflexivity.
Qed.

Lemma resting_on_floor_hit :
  exists h,
    detected resting_body [floor_segment] default_opts = [h] /\
    h_source h = floor_segment /\
    h_dist h <> 0 /\ 0 <= h_penetration h.
Proof.
  assert (H := flat_segment_collide floor_segment 0 100 100 (50 + 0)
                 (80 + (0 + 0.2)) 15 (Some 10) eq_refl).
  cbn [thickness_of] in H.
  destruct H as (h & Hc & Hs & _ & _ & Hd & Hp); try lra.
  exists h. split.
  - unfold detected, tentative, working_vx, working_vy, gravity_of.
    cbn [fst snd resting_body default_opts s_x s_y s_r s_vx s_vy o_gravity
         checkCircleCollisions].
    rewrite Hc. reflexivity.
  - split; [exact Hs|]. rewrite Hd, Hp. split; lra.
Qed.

Lemma pushed_out_to_touch_witness :
  let res := step resting_body [floor_segment] default_opts in
  exists k c rEff,
    contact_geometry (r_x res) (r_y res) 15 floor_segment
    = Some (k, c, rEff) /\
    distance (r_x res) (r_y res) (cp_x c) (cp_y c) = rEff.
Proof.
  destruct resting_on_floor_hit as (h & E & Hs & Hd & Hp).
  destruct (pushed_out_to_touch resting_body [floor_segment] default_opts
              h [] E Hd Hp) as (k & c & rEff & Hg & _ & _ & Hdist).
  rewrite dominant_single, Hs in Hg.
  exists k, c, rEff. split; [exact Hg|exact Hdist].
Defined.

(* ================================================================== *)
(** ** The host loop: lasers *)

Lemma ltb_false (a b : R) : Js.ltb a b = false <-> ~ a < b.
Proof.
  unfold Js.ltb. destruct (Rlt_dec a b); split; auto; try discriminate.
  intros N. contradiction.
Qed.

Lemma sqr_lt_of_lt (a b : R) : 0 <= a -> a < b -> a * a < b * b.
Proof. intros Ha Hab. apply Rmult_le_0_lt_compat; lra. Qed.

(** X16. The laser test is the strict form of the rectangle test of
    the detector: a laser collision implies a detector hit on the same
    rectangle, of positive penetration when the radius is not
    negative; and a detector hit of positive penetration implies a
    laser collision (a body that only touches the rectangle is hit for
    the detector, not for the laser test). *)
Theorem laser_collision_is_strict_rect_hit (ball : Ball) (laser : Laser) :
  let o := laser_obstacle laser in
  (checkLaserCollision ball laser = true ->
   exists h,
     collide (b_x ball) (b_y ball) (b_r ball) o = Some h /\
     (0 <= b_r ball -> 0 < h_penetration h)) /\
  (forall h,
     collide (b_x ball) (b_y ball) (b_r ball) o = Some h ->
     0 < h_penetration h ->
     checkLaserCollision ball laser = true).
Proof.
  cbv zeta. rewrite collide_contract.
  unfold contact_geometry, laser_obstacle, checkLaserCollision.
  cbn [shape]. cbv zeta. unfold Js.max, Js.min. fold (clamp (l_x laser) (l_x laser + l_width laser) (b_x ball)).
  fold (clamp (l_y laser) (l_y laser + l_height laser) (b_y ball)).
  set (qx := clamp (l_x laser) (l_x laser + l_width laser) (b_x ball)).
  set (qy := clamp (l_y laser) (l_y laser + l_height laser) (b_y ball)).
  cbn [cp_x cp_y].
  set (d := distance (b_x ball) (b_y ball) qx qy).
  assert (Hd : 0 <= d) by apply hypot_nonneg.
  assert (Hsq : d * d = (b_x ball - qx) * (b_x ball - qx)
                        + (b_y ball - qy) * (b_y ball - qy))
    by apply hypot_sqr.
  rewrite <- Hsq. split.
  - intros Hl. apply ltb_true in Hl.
    destruct (Rle_dec _ _) as [_|N]; [|lra].
    eexists. split; [reflexivity|].
    intros Hr. unfold contract_hit. cbn [h_penetration cp_x cp_y]. fold d.
    destruct (Rlt_dec d (b_r ball)) as [L|N]; [lra|].
    assert (b_r ball * b_r ball <= d * d) by (apply Rmult_le_compat; lra).
    lra.
  - intros h Hh Hp. destruct (Rle_dec _ _) as [_|_]; [|discriminate].
    injection Hh as <-. unfold contract_hit in Hp.
    cbn [h_penetration cp_x cp_y] in Hp. fold d in Hp.
    apply ltb_true. apply sqr_lt_of_lt; lra.
Qed.

Lemma on_screenb_true (cnvWidth : R) (l : Laser) :
  (if Req_dec_T (l_direction l) 1
   then Js.ltb (l_x l) cnvWidth
   else Js.gtb (l_x l + l_width l) 0) = true
  <-> on_screen cnvWidth l.
Proof.
  unfold on_screen, Js.gtb.
  destruct (Req_dec_T (l_direction l) 1); apply ltb_true.
Qed.

(** The loop as a map followed by a filter. *)
Lemma filterLasers_unfold
  (x y r cnvWidth deltaTime : R) (lasers : list Laser) (hitByLaser : bool) :
  filterLasers x y r cnvWidth deltaTime lasers hitByLaser
  = (filter (fun l =>
               checkLaserCollision (mkBall x y r) l
               || (if Req_dec_T (l_direction l) 1
                   then Js.ltb (l_x l) cnvWidth
                   else Js.gtb (l_x l + l_width l) 0))
            (map (moveLaser deltaTime) lasers),
     hitByLaser
     || existsb (checkLaserCollision (mkBall x y r))
                (map (moveLaser deltaTime) lasers)).
Proof.
  revert hitByLaser.
  induction lasers as [|l0 rest IH]; intros hitByLaser.
  - cbn. rewrite orb_false_r. reflexivity.
  - cbn [filterLasers map filter existsb]. unfold laserCallback.
    set (m := moveLaser deltaTime l0).
    destruct (checkLaserCollision (mkBall x y r) m) eqn:Hc.
    + rewrite IH. cbn [orb]. rewrite orb_true_r. reflexivity.
    + cbn [orb].
      destruct (Req_dec_T (l_direction m) 1); rewrite IH; reflexivity.
Qed.

(** X17. The laser update of a frame: the lasers kept are exactly the
    moved lasers that hit the ball or are still on screen, and
    [hitByLaser] ends true exactly when it was true or some moved
    laser hits the ball. *)
Theorem filterLasers_spec
  (x y r cnvWidth deltaTime : R) (lasers : list Laser) (hitByLaser : bool) :
  let out := filterLasers x y r cnvWidth deltaTime lasers hitByLaser in
  let hits l := checkLaserCollision (mkBall x y r) l = true in
  (forall l,
     In l (fst out) <->
     exists l0, In l0 lasers /\ l = moveLaser deltaTime l0 /\
                (hits l \/ on_screen cnvWidth l)) /\
  (snd out = true <->
   hitByLaser = true \/
   exists l0, In l0 lasers /\ hits (moveLaser deltaTime l0)).
Proof.
  cbv zeta. rewrite filterLasers_unfold. cbn [fst snd]. split.
  - intros l. rewrite filter_In, in_map_iff. split.
    + intros ((l0 & <- & H0) & Hk). exists l0.
      split; [exact H0|]. split; [reflexivity|].
      apply orb_true_iff in Hk. destruct Hk as [Hk|Hk]; [left; exact Hk|].
      right. apply on_screenb_true. exact Hk.
    + intros (l0 & H0 & -> & Hk). split; [exists l0; split; auto|].
      apply orb_true_iff. destruct Hk as [Hk|Hk]; [left; exact Hk|].
      right. apply on_screenb_true. exact Hk.
  - rewrite orb_true_iff, existsb_exists. split.
    + intros [H|(l & Hl & Hh)]; [left; exact H|].
      apply in_map_iff in Hl. destruct Hl as (l0 & <- & H0).
      right. exists l0. split; assumption.
    + intros [H|(l0 & H0 & Hh)]; [left; exact H|].
      right. exists (moveLaser deltaTime l0). split; [|exact Hh].
      apply in_map_iff. exists l0. split; auto.
Qed.

(* ================================================================== *)
(** ** The host loop: the speed limit *)

(* ================================================================== *)
(** ** Touch input *)

Lemma scanTouches_spec (screenWidth : R) (touches : list R) (a b : bool) :
  (fst (scanTouches screenWidth touches a b) = true <->
   a = true \/ exists xPos, In xPos touches /\ left_touch screenWidth xPos) /\
  (snd (scanTouches screenWidth touches a b) = true <->
   b = true \/ exists xPos, In xPos touches /\ right_touch screenWidth xPos).
Proof.
  revert a b. induction touches as [|xPos rest IH]; intros a b.
  - cbn. split; (split; [auto|intros [H|(? & [] & _)]; exact H]).
  - cbn [scanTouches]. unfold left_touch, right_touch in *.
    destruct (Js.ltb xPos (screenWidth / 2)) eqn:Hl.
    + apply ltb_true in Hl. destruct (IH true b) as [I1 I2]. split.
      * rewrite I1. split; [|auto].
        intros _. right. exists xPos. split; [left; reflexivity|exact Hl].
      * rewrite I2. split.
        -- intros [H|(u & Hu & Hr)]; [left; exact H|].
           right. exists u. split; [right; exact Hu|exact Hr].
        -- intros [H|(u & [<-|Hu] & Hr)];
             [left; exact H|contradiction|right; eauto].
    + apply ltb_false in Hl. destruct (IH a true) as [I1 I2]. split.
      * rewrite I1. split.
        -- intros [H|(u & Hu & Hr)]; [left; exact H|].
           right. exists u. split; [right; exact Hu|exact Hr].
        -- intros [H|(u & [<-|Hu] & Hr)];
             [left; exact H|contradiction|right; eauto].
      * rewrite I2. split; [|auto].
        intros _. right. exists xPos. split; [left; reflexivity|exact Hl].
Qed.

(** X19. After any touch update at most one of the three flags is set.
    Outside of play, and without touches, none is.  During play
    [jump] is set exactly when both halves of the screen are touched,
    [rotatingLeft] exactly when only the left half is, and
    [rotatingRight] exactly when only the right half is. *)
Theorem touch_flags
  (gameState : GameState) (screenWidth : R) (touches : list R)
  (s : TouchState) :
  let s' := updateTouchRotationFromTouches gameState screenWidth touches s in
  let left := exists xPos, In xPos touches /\ left_touch screenWidth xPos in
  let right := exists xPos, In xPos touches /\ right_touch screenWidth xPos in
  (rotatingLeft s' && rotatingRight s' = false /\
   rotatingLeft s' && jump s' = false /\
   rotatingRight s' && jump s' = false) /\
  (gameState <> Playing \/ touches = [] -> s' = mkTouchState false false false) /\
  (gameState = Playing ->
   (jump s' = true <-> left /\ right) /\
   (rotatingLeft s' = true <-> left /\ ~ right) /\
   (rotatingRight s' = true <-> right /\ ~ left)).
Proof.
  cbv zeta. unfold updateTouchRotationFromTouches.
  destruct (scanTouches_spec screenWidth touches false false) as [HL HR].
  destruct (scanTouches screenWidth touches false false) as [hl hr].
  cbn [fst snd] in HL, HR.
  assert (HL' : hl = true <->
                exists xPos, In xPos touches /\ left_touch screenWidth xPos).
  { rewrite HL. split; [intros [H|H]; [discriminate|exact H]|auto]. }
  assert (HR' : hr = true <->
                exists xPos, In xPos touches /\ right_touch screenWidth xPos).
  { rewrite HR. split; [intros [H|H]; [discriminate|exact H]|auto]. }
  clear HL HR. split; [|split].
  - destruct gameState; cbn; try (repeat split; reflexivity).
    destruct hl, hr; cbn; repeat split; reflexivity.
  - intros [Hg|Ht].
    + destruct gameState; try reflexivity. contradiction.
    + destruct gameState; try reflexivity. subst touches.
      assert (hl = false).
      { destruct hl; [|reflexivity]. destruct (proj1 HL' eq_refl) as (? & [] & _). }
      assert (hr = false).
      { destruct hr; [|reflexivity]. destruct (proj1 HR' eq_refl) as (? & [] & _). }
      subst. reflexivity.
  - intros ->. rewrite <- HL', <- HR'.
    destruct hl, hr; cbn; repeat split;
      try tauto; try discriminate;
      try (intros [? ?]; try discriminate; try contradiction);
      try (intros H; exfalso; apply H; reflexivity);
      try (intros [_ H]; exfalso; apply H; reflexivity).
Qed.

(* ================================================================== *)
(** ** Difficulty *)

Lemma updateDifficulty_fields (timestamp : R) (d : Difficulty) :
  let e := (timestamp - gameStartTime d) / 1000 in
  let d' := updateDifficulty timestamp d in
  currentManualRotationSpeed d' = BASE_MANUAL_ROTATION_SPEED /\
  currentAutoRotationSpeed d' = BASE_AUTO_ROTATION_SPEED /\
  gameStartTime d' = gameStartTime d /\
  (e <= 10 ->
   currentMaxSpeed d' = 10 /\ currentLaserSpawnInterval d' = 4000) /\
  (10 < e ->
   currentMaxSpeed d' = 10 + (e - 10) * 0.1 /\
   currentLaserSpawnInterval d' = Rmax (4000 - (e - 10) * 30) 1200).
Proof.
  cbv zeta. unfold updateDifficulty, TIME_TO_START_INCREASE,
    BASE_MAX_SPEED, BALL_SPEED_INCREASE_FACTOR, BASE_LASER_SPAWN_INTERVAL,
    LASER_SPAWN_DECREASE_FACTOR, MIN_LASER_SPAWN_INTERVAL, Js.max.
  destruct (Rgt_dec _ 10) as [G|G]; unfold Rgt in G;
    cbn [currentManualRotationSpeed currentAutoRotationSpeed gameStartTime
         currentMaxSpeed currentLaserSpawnInterval];
    repeat split; intros; try lra; try reflexivity.
Qed.

(** X21. Whatever the timestamp and the previous values, after
    [updateDifficulty] the laser spawn interval lies between 1200 and
    4000 ms, the maximum speed is at least 10 and the rotation speeds
    are the base ones.  During the first 10 seconds of a game the base
    values are in force; from 10 + 280/3 seconds on the spawn interval
    stays at its minimum of 1200 ms. *)
Theorem updateDifficulty_bounds (timestamp : R) (d : Difficulty) :
  let elapsed := (timestamp - gameStartTime d) / 1000 in
  let s := getDifficultyState (updateDifficulty timestamp d) in
  (1200 <= ds_laserSpawnInterval s <= 4000 /\
   10 <= ds_currentMaxSpeed s /\
   ds_currentManualRotationSpeed s = 0.025 /\
   ds_currentAutoRotationSpeed s = 0.008) /\
  (elapsed <= 10 ->
   ds_currentMaxSpeed s = 10 /\ ds_laserSpawnInterval s = 4000) /\
  (10 + 280 / 3 <= elapsed -> ds_laserSpawnInterval s = 1200).
Proof.
  cbv zeta. unfold getDifficultyState.
  cbn [ds_laserSpawnInterval ds_currentMaxSpeed
       ds_currentManualRotationSpeed ds_currentAutoRotationSpeed].
  destruct (updateDifficulty_fields timestamp d) as (Hm & Ha & _ & Hlo & Hhi).
  set (e := (timestamp - gameStartTime d) / 1000) in *.
  rewrite Hm, Ha.
  unfold BASE_MANUAL_ROTATION_SPEED, BASE_AUTO_ROTATION_SPEED.
  destruct (Rle_dec e 10) as [L|N].
  - destruct (Hlo L) as [-> ->]. repeat split; intros; lra.
  - assert (G : 10 < e) by lra. destruct (Hhi G) as [-> ->].
    assert (0 <= (e - 10) * 0.1) by (apply Rmult_le_pos; lra).
    split; [split; [|split; [lra|split; reflexivity]]|split].
    + split; [apply Rmax_r|]. apply Rmax_lub; lra.
    + intros; lra.
    + intros H1. apply Rmax_right. lra.
Qed.

(** X22. Difficulty only goes up with time and has no memory: for the
    same game start a later timestamp gives a maximum speed at least as
    high and a spawn interval at most as long, and an update overrides
    whatever an earlier update left. *)
Theorem updateDifficulty_monotone (t1 t2 : R) (d : Difficulty) :
  t1 <= t2 ->
  currentMaxSpeed (updateDifficulty t1 d)
  <= currentMaxSpeed (updateDifficulty t2 d) /\
  currentLaserSpawnInterval (updateDifficulty t2 d)
  <= currentLaserSpawnInterval (updateDifficulty t1 d) /\
  updateDifficulty t2 (updateDifficulty t1 d) = updateDifficulty t2 d.
Proof.
  intros Ht.
  destruct (updateDifficulty_fields t1 d) as (_ & _ & Hs1 & Hlo1 & Hhi1).
  destruct (updateDifficulty_fields t2 d) as (_ & _ & _ & Hlo2 & Hhi2).
  set (e1 := (t1 - gameStartTime d) / 1000) in *.
  set (e2 := (t2 - gameStartTime d) / 1000) in *.
  assert (He : e1 <= e2) by (unfold e1, e2; lra).
  split; [|split].
  - destruct (Rle_dec e1 10) as [L1|N1].
    + destruct (Hlo1 L1) as [-> _].
      destruct (Rle_dec e2 10) as [L2|N2].
      * destruct (Hlo2 L2) as [-> _]. lra.
      * destruct (Hhi2 ltac:(lra)) as [-> _]. lra.
    + destruct (Hhi1 ltac:(lra)) as [-> _].
      destruct (Hhi2 ltac:(lra)) as [-> _]. lra.
  - destruct (Rle_dec e1 10) as [L1|N1].
    + destruct (Hlo1 L1) as [_ ->].
      destruct (Rle_dec e2 10) as [L2|N2].
      * destruct (Hlo2 L2) as [_ ->]. lra.
      * destruct (Hhi2 ltac:(lra)) as [_ ->]. apply Rmax_lub; lra.
    + destruct (Hhi1 ltac:(lra)) as [_ ->].
      destruct (Hhi2 ltac:(lra)) as [_ ->].
      apply Rmax_lub; [|apply Rmax_r].
      eapply Rle_trans; [|apply Rmax_l]. lra.
  - unfold updateDifficulty at 1 3. rewrite Hs1. reflexivity.
Qed.

Lemma updateDifficulty_monotone_witness :
  currentMaxSpeed (updateDifficulty 20000 loadedDifficulty)
  <= currentMaxSpeed (updateDifficulty 30000 loadedDifficulty).
Proof.
  apply (updateDifficulty_monotone 20000 30000 loadedDifficulty). lra.
Defined.

Lemma initDifficulty_unset (timestamp : R) (d : Difficulty) :
  gameStartTime d = 0 ->
  initDifficulty timestamp d
  = mkDifficulty (currentMaxSpeed d) (currentManualRotationSpeed d)
                 (currentAutoRotationSpeed d) timestamp
                 (currentLaserSpawnInterval d).
Proof.
  intros H0. unfold initDifficulty.
  destruct (Req_dec_T (gameStartTime d) 0); [reflexivity|contradiction].
Qed.

Lemma initDifficulty_set (timestamp : R) (d : Difficulty) :
  gameStartTime d <> 0 -> initDifficulty timestamp d = d.
Proof.
  intros H0. unfold initDifficulty.
  destruct (Req_dec_T (gameStartTime d) 0); [contradiction|reflexivity].
Qed.

(** X23. [initDifficulty] records the start of a game once: after a
    first call with a non-zero timestamp, further calls change
    nothing.  A first timestamp of exactly 0 is not recorded (0 marks
    "not started"), so the next call sets the start.  After
    [resetDifficulty] at a non-zero timestamp [initDifficulty] has no
    effect and an update at that same timestamp gives the base maximum
    speed and spawn interval. *)
Theorem initDifficulty_once (t1 t2 : R) (d : Difficulty) :
  (gameStartTime d = 0 -> t1 <> 0 ->
   gameStartTime (initDifficulty t1 d) = t1 /\
   initDifficulty t2 (initDifficulty t1 d) = initDifficulty t1 d) /\
  (gameStartTime d = 0 ->
   initDifficulty t2 (initDifficulty 0 d) = initDifficulty t2 d) /\
  (t1 <> 0 ->
   initDifficulty t2 (resetDifficulty t1 d) = resetDifficulty t1 d /\
   currentMaxSpeed (updateDifficulty t1 (resetDifficulty t1 d)) = 10 /\
   currentLaserSpawnInterval (updateDifficulty t1 (resetDifficulty t1 d))
   = 4000).
Proof.
  split; [|split].
  - intros H0 Ht. rewrite (initDifficulty_unset t1 d H0).
    split; [reflexivity|]. apply initDifficulty_set. exact Ht.
  - intros H0. rewrite (initDifficulty_unset 0 d H0).
    rewrite initDifficulty_unset by reflexivity.
    rewrite (initDifficulty_unset t2 d H0). reflexivity.
  - intros Ht. split.
    + apply initDifficulty_set. exact Ht.
    + destruct (updateDifficulty_fields t1 (resetDifficulty t1 d))
        as (_ & _ & _ & Hlo & _).
      apply Hlo. unfold resetDifficulty. cbn [gameStartTime]. lra.
Qed.

Lemma initDifficulty_once_witness :
  gameStartTime (initDifficulty 16 loadedDifficulty) = 16 /\
  initDifficulty 32 (initDifficulty 16 loadedDifficulty)
  = initDifficulty 16 loadedDifficulty.
Proof.
  apply (proj1 (initDifficulty_once 16 32 loadedDifficulty)).
  - reflexivity.
  - lra.
Defined.

(* ================================================================== *)
(** ** The score tracker *)

Lemma floor_spec (a : R) :
  ScoreTracker.floor a <= a < ScoreTracker.floor a + 1.
Proof.
  unfold ScoreTracker.floor. destruct (base_Int_part a) as [H1 H2]. lra.
Qed.

Lemma floor_unique (z : Z) (a : R) :
  IZR z <= a < IZR z + 1 -> ScoreTracker.floor a = IZR z.
Proof.
  intros Hz. pose proof (floor_spec a) as Hf. unfold ScoreTracker.floor in *.
  f_equal.
  assert (H : (Int_part a - z = 0)%Z).
  { apply one_IZR_lt1. rewrite minus_IZR. lra. }
  apply Zminus_eq. exact H.
Qed.

Lemma floor_ge_1 (a : R) : 1 <= a -> 1 <= ScoreTracker.floor a.
Proof.
  intros Ha. pose proof (floor_spec a) as Hf. unfold ScoreTracker.floor in *.
  assert (H : (0 < Int_part a)%Z) by (apply lt_IZR; lra).
  apply IZR_le. apply Z.lt_pred_le. exact H.
Qed.

Lemma update_late (timestamp : R) (s : ScoreTracker.t) :
  ScoreTracker.lastUpdateTime s <> 0 ->
  ScoreTracker.lastUpdateTime s + 1000 <= timestamp ->
  let k := ScoreTracker.floor
             ((timestamp - ScoreTracker.lastUpdateTime s) / 1000) in
  ScoreTracker.update timestamp s
  = ScoreTracker.mk (ScoreTracker.score s + k)
                    (ScoreTracker.lastUpdateTime s + k * 1000).
Proof.
  intros H0 Ht. cbv zeta. unfold ScoreTracker.update, ScoreTracker.updateInterval.
  destruct (Req_dec_T _ 0) as [E|_]; [contradiction|].
  destruct (Rge_dec _ _) as [_|N]; [reflexivity|]. exfalso. apply N. lra.
Qed.

Lemma update_early (timestamp : R) (s : ScoreTracker.t) :
  ScoreTracker.lastUpdateTime s <> 0 ->
  timestamp < ScoreTracker.lastUpdateTime s + 1000 ->
  ScoreTracker.update timestamp s = s.
Proof.
  intros H0 Ht. unfold ScoreTracker.update, ScoreTracker.updateInterval.
  destruct (Req_dec_T _ 0) as [E|_]; [contradiction|].
  destruct (Rge_dec _ _) as [G|_]; [exfalso; lra|].
  destruct s. reflexivity.
Qed.

(** X24. One [update] of the score tracker.  The first update of a
    tracker that was never started only records the timestamp.
    Afterwards an update adds the whole seconds that passed since the
    last accounted time and advances that time by exactly as many
    seconds, so [lastUpdateTime - 1000 * score] never changes (no
    drift); the score never decreases; and when the timestamp is not
    before the last accounted time, less than one second is left
    unaccounted. *)
Theorem update_accounting (timestamp : R) (s : ScoreTracker.t) :
  let s' := ScoreTracker.update timestamp s in
  let last := ScoreTracker.lastUpdateTime in
  let score := ScoreTracker.score in
  (last s = 0 -> s' = ScoreTracker.mk (score s) timestamp) /\
  (last s <> 0 ->
   last s' - 1000 * score s' = last s - 1000 * score s /\
   score s <= score s' /\
   (last s + 1000 <= timestamp -> score s + 1 <= score s') /\
   (timestamp < last s + 1000 -> s' = s) /\
   (last s <= timestamp -> last s' <= timestamp < last s' + 1000)).
Proof.
  cbv zeta. split.
  - intros H0. unfold ScoreTracker.update, ScoreTracker.updateInterval.
    rewrite H0. destruct (Req_dec_T 0 0) as [_|N]; [|contradiction].
    destruct (Rge_dec _ _) as [G|_]; [exfalso; lra|reflexivity].
  - intros H0.
    destruct (Rle_dec (ScoreTracker.lastUpdateTime s + 1000) timestamp)
      as [L|N].
    + rewrite (update_late timestamp s H0 L). cbv zeta.
      set (a := (timestamp - ScoreTracker.lastUpdateTime s) / 1000).
      pose proof (floor_spec a) as Hf.
      assert (Ha : 1 <= a) by (unfold a; lra).
      pose proof (floor_ge_1 a Ha) as Hk.
      cbn [ScoreTracker.score ScoreTracker.lastUpdateTime].
      split; [ring|]. split; [lra|]. split; [intros _; lra|].
      assert (Ea : a * 1000 = timestamp - ScoreTracker.lastUpdateTime s)
        by (unfold a; field).
      split; [intros; exfalso; lra|]. intros _. lra.
    + assert (Hlt : timestamp < ScoreTracker.lastUpdateTime s + 1000) by lra.
      rewrite (update_early timestamp s H0 Hlt).
      split; [reflexivity|]. split; [lra|]. split; [intros; lra|].
      split; [reflexivity|]. intros; lra.
Qed.

(** What a frame keeps true, for a tracker started at [now > 0]. *)
Lemma score_invariant_step (now lo timestamp : R) (s : ScoreTracker.t) :
  0 < ScoreTracker.lastUpdateTime s ->
  (exists z, ScoreTracker.score s = IZR z) ->
  ScoreTracker.lastUpdateTime s = now + 1000 * ScoreTracker.score s ->
  ScoreTracker.lastUpdateTime s <= lo ->
  lo <= timestamp ->
  let s' := ScoreTracker.update timestamp s in
  0 < ScoreTracker.lastUpdateTime s' /\
  (exists z, ScoreTracker.score s' = IZR z) /\
  ScoreTracker.lastUpdateTime s' = now + 1000 * ScoreTracker.score s' /\
  ScoreTracker.lastUpdateTime s' <= timestamp
  < ScoreTracker.lastUpdateTime s' + 1000.
Proof.
  intros Hpos (z & Hz) Hinv Hlo Ht. cbv zeta.
  assert (H0 : ScoreTracker.lastUpdateTime s <> 0) by lra.
  destruct (Rle_dec (ScoreTracker.lastUpdateTime s + 1000) timestamp)
    as [L|N].
  - rewrite (update_late timestamp s H0 L). cbv zeta.
    set (a := (timestamp - ScoreTracker.lastUpdateTime s) / 1000).
    pose proof (floor_spec a) as Hf.
    assert (Ha : 1 <= a) by (unfold a; lra).
    pose proof (floor_ge_1 a Ha) as Hk.
    cbn [ScoreTracker.score ScoreTracker.lastUpdateTime].
    split; [lra|]. split.
    + exists (z + Int_part a)%Z. rewrite plus_IZR, Hz. reflexivity.
    + assert (Ea : a * 1000 = timestamp - ScoreTracker.lastUpdateTime s)
        by (unfold a; field).
      split; [lra|]. lra.
  - assert (Hlt : timestamp < ScoreTracker.lastUpdateTime s + 1000) by lra.
    rewrite (update_early timestamp s H0 Hlt).
    split; [exact Hpos|]. split; [exists z; exact Hz|].
    split; [exact Hinv|]. lra.
Qed.

Lemma last_cons_default (t lo : R) (rest : list R) :
  last (t :: rest) lo = last rest t.
Proof.
  revert t lo. induction rest as [|u rest IH]; intros t lo; [reflexivity|].
  change (last (t :: u :: rest) lo) with (last (u :: rest) lo).
  rewrite (IH u lo), (IH u t). reflexivity.
Qed.

Lemma score_run_invariant (now : R) (timestamps : list R) :
  forall (lo : R) (s : ScoreTracker.t),
  0 < ScoreTracker.lastUpdateTime s ->
  (exists z, ScoreTracker.score s = IZR z) ->
  ScoreTracker.lastUpdateTime s = now + 1000 * ScoreTracker.score s ->
  ScoreTracker.lastUpdateTime s <= lo < ScoreTracker.lastUpdateTime s + 1000 ->
  nondecreasing_from lo timestamps ->
  let s' := score_run timestamps s in
  (exists z, ScoreTracker.score s' = IZR z) /\
  ScoreTracker.lastUpdateTime s' = now + 1000 * ScoreTracker.score s' /\
  ScoreTracker.lastUpdateTime s' <= last timestamps lo
  < ScoreTracker.lastUpdateTime s' + 1000.
Proof.
  induction timestamps as [|t rest IH]; intros lo s Hpos Hz Hinv Hlo Hnd.
  - cbn. split; [exact Hz|]. split; [exact Hinv|exact Hlo].
  - destruct Hnd as [Hle Hrest].
    destruct (score_invariant_step now lo t s Hpos Hz Hinv (proj1 Hlo) Hle)
      as (Hpos' & Hz' & Hinv' & Hlo').
    cbv zeta. unfold score_run. cbn [fold_left]. fold (score_run rest).
    specialize (IH t (ScoreTracker.update t s) Hpos' Hz' Hinv' Hlo' Hrest).
    cbv zeta in IH. destruct IH as (I1 & I2 & I3).
    split; [exact I1|]. split; [exact I2|].
    rewrite last_cons_default. exact I3.
Qed.

(** X25. The score is the number of whole seconds since the start,
    however the frames fall: after [start] at time [now > 0] and one
    [update] per frame, for timestamps that start at or after [now]
    and never go back, the score is the floor of the seconds elapsed
    at the last frame. *)
Theorem score_counts_whole_seconds
  (now : R) (timestamps : list R) (s0 : ScoreTracker.t) :
  0 < now ->
  nondecreasing_from now timestamps ->
  let s := score_run timestamps (ScoreTracker.start now s0) in
  ScoreTracker.getScore s
  = ScoreTracker.floor ((last timestamps now - now) / 1000).
Proof.
  intros Hnow Hnd. cbv zeta.
  destruct (score_run_invariant now timestamps now (ScoreTracker.start now s0))
    as ((z & Hz) & Hinv & Hlo).
  - exact Hnow.
  - exists 0%Z. reflexivity.
  - cbn. ring.
  - cbn. lra.
  - exact Hnd.
  - unfold ScoreTracker.getScore. rewrite Hz. symmetry.
    apply floor_unique. rewrite Hinv, Hz in Hlo. lra.
Qed.

Lemma score_counts_whole_seconds_witness :
  ScoreTracker.getScore
    (score_run [1016; 1500; 2600; 3100]
               (ScoreTracker.start 1000 ScoreTracker.create))
  = ScoreTracker.floor ((last [1016; 1500; 2600; 3100] 1000 - 1000) / 1000).
Proof.
  apply (score_counts_whole_seconds 1000 [1016; 1500; 2600; 3100]
           ScoreTracker.create).
  - lra.
  - cbn. repeat split; lra.
Defined.

(* ================================================================== *)
(** ** The velocity a step returns *)

Lemma recombine_dot_normal (tx ty vt nx ny vn : R) :
  tx * nx + ty * ny = 0 -> nx * nx + ny * ny = 1 ->
  let out := recombine tx ty vt nx ny vn in
  dot (fst out) (snd out) nx ny = Rmax 0 vn.
Proof.
  intros Hp Hu. cbv zeta. unfold recombine, dot.
  assert (D : (tx * vt + nx * vn) * nx + (ty * vt + ny * vn) * ny = vn).
  { replace ((tx * vt + nx * vn) * nx + (ty * vt + ny * vn) * ny)
      with (vt * (tx * nx + ty * ny) + vn * (nx * nx + ny * ny)) by ring.
    rewrite Hp, Hu. ring. }
  rewrite D. destruct (Rlt_dec vn 0) as [L|N]; cbn [fst snd].
  - rewrite Rmax_left by lra.
    replace ((tx * vt + nx * vn - nx * vn) * nx
             + (ty * vt + ny * vn - ny * vn) * ny)
      with (vt * (tx * nx + ty * ny)) by ring.
    rewrite Hp. ring.
  - rewrite Rmax_right by lra. exact D.
Qed.

Lemma recombine_dot_tangent (tx ty vt nx ny vn : R) :
  tx * nx + ty * ny = 0 -> tx * tx + ty * ty = 1 ->
  let out := recombine tx ty vt nx ny vn in
  dot (fst out) (snd out) tx ty = vt.
Proof.
  intros Hp Hu. cbv zeta. unfold recombine, dot.
  set (D := (tx * vt + nx * vn) * nx + (ty * vt + ny * vn) * ny).
  destruct (Rlt_dec D 0) as [L|N]; cbn [fst snd].
  - replace ((tx * vt + nx * vn - nx * D) * tx
             + (ty * vt + ny * vn - ny * D) * ty)
      with (vt * (tx * tx + ty * ty) + (vn - D) * (tx * nx + ty * ny))
      by ring.
    rewrite Hp, Hu. ring.
  - replace ((tx * vt + nx * vn) * tx + (ty * vt + ny * vn) * ty)
      with (vt * (tx * tx + ty * ty) + vn * (tx * nx + ty * ny)) by ring.
    rewrite Hp, Hu. ring.
Qed.

Lemma tangent_of_unit (nx ny : R) :
  nx * nx + ny * ny = 1 -> tangent_of nx ny = (- ny, nx).
Proof.
  intros Hu. unfold tangent_of.
  assert (H : Js.hypot (- ny) nx = 1).
  { unfold Js.hypot. replace (- ny * - ny + nx * nx) with 1 by lra.
    apply sqrt_1. }
  rewrite H. unfold Js.or_else. destruct (Req_dec_T 1 0); [lra|].
  f_equal; field.
Qed.

Lemma hit_unit_normal (cx cy cr : R) (obstacles : list Obstacle) (h : Hit) :
  In h (checkCircleCollisions cx cy cr obstacles) ->
  h_dist h <> 0 ->
  h_nx h * h_nx h + h_ny h * h_ny h = 1.
Proof.
  intros Hin Hd.
  destruct (hit_is_contract_hit _ _ _ _ _ Hin)
    as (k & c & rEff & _ & _ & Hh & _).
  pose proof (contract_hit_normal cx cy (h_source h) k c rEff) as [_ H1].
  cbv zeta in H1. rewrite <- Hh in H1. apply H1.
  intros E. apply Hd. rewrite Hh. exact E.
Qed.

(** The code's outgoing velocity is the recombination of the two
    policies. *)
Lemma resolveContact_velocity (state : State) (opts : Opts) (h : Hit) :
  let c := resolveContact (frame state opts) h in
  (c_outVx c, c_outVy c) = contact_velocity state opts h.
Proof.
  cbv zeta. unfold contact_velocity.
  pose proof (resolveContact_outgoing (frame state opts) h) as Ho.
  cbv zeta in Ho. rewrite Ho.
  pose proof (resolveContact_tangent (frame state opts) h) as Ht.
  injection Ht as -> ->.
  assert (Hvt : c_vAlong (resolveContact (frame state opts) h)
                = policy_tangential_velocity state opts h)
    by exact (resolveContact_tangential_scalar (frame state opts) h).
  assert (Hvn : c_new_vn_scalar (resolveContact (frame state opts) h)
                = policy_normal_velocity state opts h)
    by exact (resolveContact_normal_scalar (frame state opts) h).
  rewrite Hvt, Hvn. reflexivity.
Qed.

(** What [step] returns as velocity, speed and direction: the computed
    velocity put through the stop test. *)
Lemma step_settles_computed_velocity
  (state : State) (obstacles : list Obstacle) (opts : Opts) :
  let res := step state obstacles opts in
  let v := computed_velocity state obstacles opts in
  let k := settle (stopThreshold_of opts) (fst v) (snd v) in
  r_dx res = k_dx k /\ r_dy res = k_dy k /\ r_speed res = k_speed k /\
  r_vx res = k_vx k /\ r_vy res = k_vy k.
Proof.
  cbv zeta. rewrite step_cases. unfold computed_velocity.
  destruct (detected state obstacles opts) as [|h0 rest].
  - repeat split.
  - pose proof (resolveContact_velocity state opts (dominant h0 rest)) as Hv.
    cbv zeta in Hv. rewrite <- Hv. repeat split.
Qed.

Lemma settle_cases (st vx vy : R) :
  let k := settle st vx vy in
  (Js.hypot vx vy < st ->
   k_dx k = Js.Finite 0 /\ k_dy k = Js.Finite 0 /\ k_speed k = 0 /\
   k_vx k = 0 /\ k_vy k = 0) /\
  (~ Js.hypot vx vy < st ->
   k_dx k = Js.js_div vx (Js.hypot vx vy) /\
   k_dy k = Js.js_div vy (Js.hypot vx vy) /\
   k_speed k = Js.hypot vx vy /\ k_vx k = vx /\ k_vy k = vy).
Proof.
  cbv zeta. unfold settle.
  destruct (Rlt_dec (Js.hypot vx vy) st) as [L|N]; split; intros H;
    try contradiction; repeat split.
Qed.

(** C8 (as the code has it). With a positive stop threshold every state
    returned by [step], airborne or in contact, satisfies the
    body-state invariant; in general it satisfies the invariant or the
    stop threshold is at most 0, the velocity and speed are 0 and both
    direction components are the non-finite outcome of [0 / 0].  The
    stopped case is entered exactly when the computed speed, the
    magnitude of the velocity the step computed, is below the stop
    threshold; otherwise that velocity is returned with its magnitude
    as speed and its quotients by the speed as direction. *)
Theorem step_body_invariant
  (state : State) (obstacles : list Obstacle) (opts : Opts) :
  let res := step state obstacles opts in
  let v := computed_velocity state obstacles opts in
  let computed_speed := Js.hypot (fst v) (snd v) in
  (0 < stopThreshold_of opts -> body_invariant res) /\
  (body_invariant res \/ (stopThreshold_of opts <= 0 /\ degenerate res)) /\
  (computed_speed < stopThreshold_of opts -> stopped res) /\
  (~ computed_speed < stopThreshold_of opts ->
   r_vx res = fst v /\ r_vy res = snd v /\ r_speed res = computed_speed /\
   r_dx res = Js.js_div (fst v) computed_speed /\
   r_dy res = Js.js_div (snd v) computed_speed) /\
  (0 < stopThreshold_of opts ->
   (stopped res <-> computed_speed < stopThreshold_of opts)).
Proof.
  cbv zeta.
  destruct (step_settles_computed_velocity state obstacles opts)
    as (Hdx & Hdy & Hs & Hvx & Hvy).
  set (v := computed_velocity state obstacles opts) in *.
  destruct (settle_cases (stopThreshold_of opts) (fst v) (snd v))
    as [Hstop Hmove].
  unfold body_invariant, moving, stopped, degenerate.
  rewrite Hdx, Hdy, Hs, Hvx, Hvy.
  split; [|split; [|split; [|split]]].
  - intros Hst. apply (settle_invariant_pos _ (fst v) (snd v) Hst).
  - apply (settle_invariant (stopThreshold_of opts) (fst v) (snd v)).
  - intros L. unfold stopped_at. apply Hstop. exact L.
  - intros N. destruct (Hmove N) as (H1 & H2 & H3 & H4 & H5).
    repeat split; assumption.
  - intros Hst. split; [|intros L; unfold stopped_at; apply Hstop; exact L].
    intros (_ & _ & H3 & _).
    destruct (Rlt_dec (Js.hypot (fst v) (snd v)) (stopThreshold_of opts))
      as [L|N]; [exact L|].
    destruct (Hmove N) as (_ & _ & H3' & _). rewrite H3' in H3. lra.
Qed.

Lemma step_body_invariant_witness :
  body_invariant (step resting_body [platform] default_opts).
Proof.
  apply (proj1 (step_body_invariant resting_body [platform] default_opts)).
  unfold stopThreshold_of, default_opts. cbn [o_stopThreshold]. lra.
Defined.

(* ================================================================== *)
(** ** The two response policies on the returned velocity *)

(** C6. In a step that resolves a contact, the normal-velocity scalar
    is: the negated relative normal velocity times restitution plus the
    obstacle's normal velocity when the relative normal velocity is
    below -0.10; else the gravity-inclusive normal velocity when that
    is positive; else the obstacle's normal velocity.  The obstacle's
    velocity at the contact point is [(-omega * dy, omega * dx)] about
    its rotation centre, zero without angular velocity.  The velocity
    [step] returns is the recombination of this scalar on the normal
    with the tangential scalar on the tangent, put through the stop
    test; for a hit of non-zero distance its component along the
    normal is the scalar, clipped at 0 from below by the final
    non-penetration strip. *)
Theorem normal_response
  (state : State) (obstacles : list Obstacle) (opts : Opts)
  (h0 : Hit) (rest : list Hit) :
  detected state obstacles opts = h0 :: rest ->
  let h := dominant h0 rest in
  let f := frame state opts in
  let res := step state obstacles opts in
  let ov := contact_point_velocity (h_source h) (h_cp h) in
  let vx0 := working_vx state in
  let vy0 := working_vy state in
  let t := tangent_of (h_nx h) (h_ny h) in
  let vn :=
    normal_policy
      (dot (vx0 - fst ov) (vy0 - snd ov) (h_nx h) (h_ny h))
      (dot (fst ov) (snd ov) (h_nx h) (h_ny h))
      (dot vx0 (vy0 + gravity_of opts) (h_nx h) (h_ny h))
      (restitution_of opts) in
  let out :=
    recombine (fst t) (snd t) (policy_tangential_velocity state opts h)
              (h_nx h) (h_ny h) vn in
  let stop := Js.hypot (fst out) (snd out) < stopThreshold_of opts in
  (c_obsVx (resolveContact f h), c_obsVy (resolveContact f h)) = ov /\
  c_new_vn_scalar (resolveContact f h) = vn /\
  (stop -> r_vx res = 0 /\ r_vy res = 0) /\
  (~ stop -> r_vx res = fst out /\ r_vy res = snd out) /\
  (h_dist h <> 0 ->
   dot (fst out) (snd out) (h_nx h) (h_ny h) = Rmax 0 vn /\
   (~ stop -> dot (r_vx res) (r_vy res) (h_nx h) (h_ny h) = Rmax 0 vn) /\
   (~ stop -> 0 <= vn ->
    dot (r_vx res) (r_vy res) (h_nx h) (h_ny h) = vn)).
Proof.
  intros E h f res ov vx0 vy0 t vn out stop.
  assert (Hcv : computed_velocity state obstacles opts = out).
  { unfold computed_velocity. rewrite E. reflexivity. }
  destruct (step_settles_computed_velocity state obstacles opts)
    as (_ & _ & _ & Hvx & Hvy).
  rewrite Hcv in Hvx, Hvy. fold res in Hvx, Hvy.
  destruct (settle_cases (stopThreshold_of opts) (fst out) (snd out))
    as [Hstop Hmove].
  assert (Hmv : ~ stop -> r_vx res = fst out /\ r_vy res = snd out).
  { intros N. destruct (Hmove N) as (_ & _ & _ & H4 & H5).
    rewrite Hvx, Hvy. split; assumption. }
  split; [apply resolveContact_obstacle|].
  split; [exact (resolveContact_normal_scalar f h)|].
  split.
  { intros L. destruct (Hstop L) as (_ & _ & _ & H4 & H5).
    rewrite Hvx, Hvy. split; assumption. }
  split; [exact Hmv|].
  intros Hd.
  assert (Hu : h_nx h * h_nx h + h_ny h * h_ny h = 1).
  { apply (hit_unit_normal (fst (tentative state opts))
             (snd (tentative state opts)) (s_r state) obstacles); [|exact Hd].
    fold (detected state obstacles opts). rewrite E. apply dominant_In. }
  assert (Hn : dot (fst out) (snd out) (h_nx h) (h_ny h) = Rmax 0 vn).
  { apply recombine_dot_normal; [|exact Hu].
    apply tangent_perpendicular. }
  split; [exact Hn|]. split.
  - intros N. destruct (Hmv N) as [-> ->]. exact Hn.
  - intros N Hvn. destruct (Hmv N) as [-> ->]. rewrite Hn.
    apply Rmax_right. exact Hvn.
Qed.

Lemma normal_response_witness :
  let h := dominant platform_hit [] in
  let f := frame resting_body default_opts in
  let res := step resting_body [platform] default_opts in
  let ov := contact_point_velocity (h_source h) (h_cp h) in
  let t := tangent_of (h_nx h) (h_ny h) in
  let vn :=
    normal_policy
      (dot (0 - fst ov) (0 - snd ov) (h_nx h) (h_ny h))
      (dot (fst ov) (snd ov) (h_nx h) (h_ny h))
      (dot 0 (0 + 0.2) (h_nx h) (h_ny h))
      0.3 in
  let out :=
    recombine (fst t) (snd t)
              (policy_tangential_velocity resting_body default_opts h)
              (h_nx h) (h_ny h) vn in
  c_new_vn_scalar (resolveContact f h) = vn /\
  (~ Js.hypot (fst out) (snd out) < 0.02 ->
   r_vx res = fst out /\ r_vy res = snd out).
Proof.
  destruct (normal_response resting_body [platform] default_opts
              platform_hit [] platform_detected)
    as (_ & H2 & _ & H4 & _).
  split; [exact H2|exact H4].
Defined.

(** C7. In a step that resolves a contact, the tangential-velocity
    scalar is (relative tangential velocity + gravity along the
    tangent) times tangential friction, weighted [1 - retention],
    plus the raw relative tangential velocity weighted [retention],
    plus the obstacle's tangential velocity; a result of magnitude
    below 0.02 whose sign opposes the tangent's vertical component is
    replaced by 0.  The velocity [step] returns is the recombination of
    this scalar on the tangent with the normal scalar on the normal,
    put through the stop test; for a hit of non-zero distance its
    component along the tangent is exactly this scalar. *)
Theorem tangential_response
  (state : State) (obstacles : list Obstacle) (opts : Opts)
  (h0 : Hit) (rest : list Hit) :
  detected state obstacles opts = h0 :: rest ->
  let h := dominant h0 rest in
  let f := frame state opts in
  let res := step state obstacles opts in
  let ov := contact_point_velocity (h_source h) (h_cp h) in
  let t := tangent_of (h_nx h) (h_ny h) in
  let vx0 := working_vx state in
  let vy0 := working_vy state in
  let vt :=
    anti_creep
      (tangential_blend
         (dot (vx0 - fst ov) (vy0 - snd ov) (fst t) (snd t))
         (gravity_of opts * snd t)
         (dot (fst ov) (snd ov) (fst t) (snd t))
         (tangentialFriction_of opts) (tangentialRetention_of opts))
      (snd t) in
  let out :=
    recombine (fst t) (snd t) vt (h_nx h) (h_ny h)
              (policy_normal_velocity state opts h) in
  let stop := Js.hypot (fst out) (snd out) < stopThreshold_of opts in
  (c_tx (resolveContact f h), c_ty (resolveContact f h)) = t /\
  c_vAlong (resolveContact f h) = vt /\
  (stop -> r_vx res = 0 /\ r_vy res = 0) /\
  (~ stop -> r_vx res = fst out /\ r_vy res = snd out) /\
  (h_dist h <> 0 ->
   dot (fst out) (snd out) (fst t) (snd t) = vt /\
   (~ stop -> dot (r_vx res) (r_vy res) (fst t) (snd t) = vt)).
Proof.
  intros E h f res ov t vx0 vy0 vt out stop.
  assert (Hcv : computed_velocity state obstacles opts = out).
  { unfold computed_velocity. rewrite E. reflexivity. }
  destruct (step_settles_computed_velocity state obstacles opts)
    as (_ & _ & _ & Hvx & Hvy).
  rewrite Hcv in Hvx, Hvy. fold res in Hvx, Hvy.
  destruct (settle_cases (stopThreshold_of opts) (fst out) (snd out))
    as [Hstop Hmove].
  assert (Hmv : ~ stop -> r_vx res = fst out /\ r_vy res = snd out).
  { intros N. destruct (Hmove N) as (_ & _ & _ & H4 & H5).
    rewrite Hvx, Hvy. split; assumption. }
  split; [apply resolveContact_tangent|].
  split; [exact (resolveContact_tangential_scalar f h)|].
  split.
  { intros L. destruct (Hstop L) as (_ & _ & _ & H4 & H5).
    rewrite Hvx, Hvy. split; assumption. }
  split; [exact Hmv|].
  intros Hd.
  assert (Hu : h_nx h * h_nx h + h_ny h * h_ny h = 1).
  { apply (hit_unit_normal (fst (tentative state opts))
             (snd (tentative state opts)) (s_r state) obstacles); [|exact Hd].
    fold (detected state obstacles opts). rewrite E. apply dominant_In. }
  assert (Ht : dot (fst out) (snd out) (fst t) (snd t) = vt).
  { apply recombine_dot_tangent; [apply tangent_perpendicular|].
    unfold t. rewrite (tangent_of_unit _ _ Hu). cbn [fst snd]. lra. }
  split; [exact Ht|].
  intros N. destruct (Hmv N) as [-> ->]. exact Ht.
Qed.

Lemma tangential_response_witness :
  let h := dominant platform_hit [] in
  let f := frame resting_body default_opts in
  let res := step resting_body [platform] default_opts in
  let ov := contact_point_velocity (h_source h) (h_cp h) in
  let t := tangent_of (h_nx h) (h_ny h) in
  let vt :=
    anti_creep
      (tangential_blend
         (dot (0 - fst ov) (0 - snd ov) (fst t) (snd t))
         (0.2 * snd t)
         (dot (fst ov) (snd ov) (fst t) (snd t))
         0.995 0.6)
      (snd t) in
  let out :=
    recombine (fst t) (snd t) vt (h_nx h) (h_ny h)
              (policy_normal_velocity resting_body default_opts h) in
  c_vAlong (resolveContact f h) = vt /\
  (~ Js.hypot (fst out) (snd out) < 0.02 ->
   r_vx res = fst out /\ r_vy res = snd out).
Proof.
  destruct (tangential_response resting_body [platform] default_opts
              platform_hit [] platform_detected)
    as (_ & H2 & _ & H4 & _).
  split; [exact H2|exact H4].
Defined.

(* ================================================================== *)
(** ** The host loop: the velocity kept by a frame *)

Lemma hypot_neg_l (a b : R) : Js.hypot (- a) b = Js.hypot a b.
Proof. unfold Js.hypot. f_equal. ring. Qed.

(** Lines 278-303 only scale the step's velocity down. *)
Lemma limitSpeed_scaled
  (physicsResult : Result) (scaleFactor currentMaxSpeed : R) :
  0 <= currentMaxSpeed * scaleFactor ->
  let hv := limitSpeed physicsResult scaleFactor currentMaxSpeed in
  exists vx vy k,
    hv_vx hv = Js.Finite vx /\ hv_vy hv = Js.Finite vy /\
    0 <= k <= 1 /\
    vx = k * r_vx physicsResult /\ vy = k * r_vy physicsResult /\
    Js.hypot vx vy <= currentMaxSpeed * scaleFactor.
Proof.
  intros HM. cbv zeta. unfold limitSpeed.
  set (M := currentMaxSpeed * scaleFactor) in *.
  assert (Hclamp : forall vx vy k0,
            0 <= k0 <= 1 ->
            vx = k0 * r_vx physicsResult -> vy = k0 * r_vy physicsResult ->
            forall dx dy sp,
            let hv :=
              if Rgt_dec (Js.hypot vx vy) M then
                mkHostVelocity
                  (qdiv (qmul vx (Js.js_div M (Js.hypot vx vy))) M)
                  (qdiv (qmul vy (Js.js_div M (Js.hypot vx vy))) M) M
                  (qmul vx (Js.js_div M (Js.hypot vx vy)))
                  (qmul vy (Js.js_div M (Js.hypot vx vy)))
              else mkHostVelocity dx dy sp (Js.Finite vx) (Js.Finite vy) in
            exists vx' vy' k,
              hv_vx hv = Js.Finite vx' /\ hv_vy hv = Js.Finite vy' /\
              0 <= k <= 1 /\
              vx' = k * r_vx physicsResult /\ vy' = k * r_vy physicsResult /\
              Js.hypot vx' vy' <= M).
  { intros vx vy k0 Hk0 Hvx Hvy dx dy sp. cbv zeta.
    destruct (Rgt_dec (Js.hypot vx vy) M) as [G|G].
    - unfold Rgt in G. set (T := Js.hypot vx vy) in *.
      assert (HT : 0 < T) by lra.
      unfold Js.js_div. destruct (Req_dec_T T 0) as [E|_]; [lra|].
      cbn [qmul hv_vx hv_vy].
      assert (Hr : 0 <= M / T <= 1).
      { split.
        - apply Rmult_le_pos; [lra|]. apply Rlt_le, Rinv_0_lt_compat, HT.
        - apply (Rmult_le_reg_r T); [exact HT|].
          replace (M / T * T) with M by (field; lra). lra. }
      exists (vx * (M / T)), (vy * (M / T)), (M / T * k0).
      split; [reflexivity|]. split; [reflexivity|]. split.
      + split; [apply Rmult_le_pos; lra|].
        replace 1 with (1 * 1) by ring. apply Rmult_le_compat; lra.
      + split; [rewrite Hvx; ring|]. split; [rewrite Hvy; ring|].
        replace (vx * (M / T)) with (M / T * vx) by ring.
        replace (vy * (M / T)) with (M / T * vy) by ring.
        rewrite hypot_scale by lra. fold T.
        replace (M / T * T) with M by (field; lra). lra.
    - cbn [hv_vx hv_vy]. exists vx, vy, k0.
      split; [reflexivity|]. split; [reflexivity|]. split; [exact Hk0|].
      split; [exact Hvx|]. split; [exact Hvy|].
      unfold Rgt in G. lra. }
  destruct (Rlt_dec (r_speed physicsResult) (0.05 * scaleFactor)).
  - apply (Hclamp 0 0 0); [lra|ring|ring].
  - apply (Hclamp (r_vx physicsResult) (r_vy physicsResult) 1); [lra|ring|ring].
Qed.


(** X18. With a non-negative scaled maximum speed, the velocity a
    frame of play leaves for the next one is finite and its magnitude
    never exceeds the scaled maximum speed.  It is the step's velocity
    scaled by a factor between 0 and 1, with the horizontal component
    negated exactly when the ball reaches over the left or the right
    edge of the canvas. *)
Theorem frameVelocity_bound
  (physicsResult : Result) (scaleFactor currentMaxSpeed r cnvWidth : R) :
  0 <= currentMaxSpeed * scaleFactor ->
  let hv := frameVelocity physicsResult scaleFactor currentMaxSpeed
                          r cnvWidth in
  let over_edge :=
    cnvWidth < r_x physicsResult + r \/ r_x physicsResult - r < 0 in
  exists vx vy k,
    hv_vx hv = Js.Finite vx /\ hv_vy hv = Js.Finite vy /\
    Js.hypot vx vy <= currentMaxSpeed * scaleFactor /\
    0 <= k <= 1 /\
    vy = k * r_vy physicsResult /\
    (over_edge -> vx = - (k * r_vx physicsResult)) /\
    (~ over_edge -> vx = k * r_vx physicsResult).
Proof.
  intros HM. cbv zeta.
  destruct (limitSpeed_scaled physicsResult scaleFactor currentMaxSpeed HM)
    as (vx & vy & k & Hx & Hy & Hk & Evx & Evy & Hb).
  unfold frameVelocity.
  destruct (Js.gtb (r_x physicsResult + r) cnvWidth
            || Js.ltb (r_x physicsResult - r) 0) eqn:Hc.
  - assert (Ho : cnvWidth < r_x physicsResult + r
                 \/ r_x physicsResult - r < 0).
    { apply orb_true_iff in Hc. unfold Js.gtb in Hc.
      destruct Hc as [Hc|Hc]; apply ltb_true in Hc; [left|right]; exact Hc. }
    exists (- 1 * vx), vy, k. cbn [hv_vx hv_vy]. rewrite Hx, Hy.
    split; [reflexivity|]. split; [reflexivity|].
    split.
    { replace (- 1 * vx) with (- vx) by ring. rewrite hypot_neg_l. exact Hb. }
    split; [exact Hk|]. split; [exact Evy|].
    split; [intros _; rewrite Evx; ring|]. intros N. contradiction.
  - assert (Ho : ~ (cnvWidth < r_x physicsResult + r
                    \/ r_x physicsResult - r < 0)).
    { apply orb_false_iff in Hc. unfold Js.gtb in Hc. destruct Hc as [H1 H2].
      apply ltb_false in H1. apply ltb_false in H2. tauto. }
    exists vx, vy, k.
    split; [exact Hx|]. split; [exact Hy|]. split; [exact Hb|].
    split; [exact Hk|]. split; [exact Evy|].
    split; [intros H; contradiction|]. intros _. exact Evx.
Qed.

Lemma frameVelocity_bound_witness :
  let res := step edge_body [] arena_opts in
  exists vx vy k,
    hv_vx (frameVelocity res 1 10 10 100) = Js.Finite vx /\
    hv_vy (frameVelocity res 1 10 10 100) = Js.Finite vy /\
    Js.hypot vx vy <= 10 * 1 /\
    0 <= k <= 1 /\
    vy = k * r_vy res /\
    (100 < r_x res + 10 \/ r_x res - 10 < 0 -> vx = - (k * r_vx res)) /\
    (~ (100 < r_x res + 10 \/ r_x res - 10 < 0) -> vx = k * r_vx res).
Proof.
  apply (frameVelocity_bound (step edge_body [] arena_opts) 1 10 10 100).
  lra.
Defined.

(* ================================================================== *)
(** ** The host loop: rotation *)

Lemma touchEnd_is_update (gameState : GameState) (screenWidth : R)
  (touches : list R) (s : TouchState) :
  touchEnd gameState screenWidth touches s
  = updateTouchRotationFromTouches gameState screenWidth touches s.
Proof.
  unfold touchEnd. destruct touches as [|x rest]; [|reflexivity].
  destruct gameState; reflexivity.
Qed.

(** X20. The platform follows the touches.  A frame outside of play
    leaves the platform angle alone.  A frame of play adds to it:
    minus the manual speed when the last touch update, made during
    play, saw touches in the left half only; the manual speed when it
    saw touches in the right half only; and the automatic speed when
    it saw none or both, or was made outside of play.  The [touchend]
    and [touchcancel] handlers leave the same flags as the plain
    update. *)
Theorem rotation_follows_touch
  (touchState frameState : GameState) (screenWidth manual auto alpha : R)
  (touches : list R) (s : TouchState) :
  let s' := updateTouchRotationFromTouches touchState screenWidth touches s in
  let alpha' := rotateFrame frameState (rotatingLeft s') (rotatingRight s')
                            manual auto alpha in
  let left := exists xPos, In xPos touches /\ left_touch screenWidth xPos in
  let right := exists xPos, In xPos touches /\ right_touch screenWidth xPos in
  touchEnd touchState screenWidth touches s = s' /\
  (frameState <> Playing -> alpha' = alpha) /\
  (frameState = Playing ->
   (touchState <> Playing -> alpha' = alpha + auto) /\
   (touchState = Playing ->
    (left /\ ~ right -> alpha' = alpha + - manual) /\
    (right /\ ~ left -> alpha' = alpha + manual) /\
    ((left /\ right) \/ (~ left /\ ~ right) -> alpha' = alpha + auto))).
Proof.
  cbv zeta. split; [apply touchEnd_is_update|].
  unfold updateTouchRotationFromTouches, rotateFrame.
  destruct (scanTouches_spec screenWidth touches false false) as [HL HR].
  destruct (scanTouches screenWidth touches false false) as [hl hr].
  cbn [fst snd] in HL, HR.
  assert (HL' : hl = true <->
                exists xPos, In xPos touches /\ left_touch screenWidth xPos).
  { rewrite HL. split; [intros [H|H]; [discriminate|exact H]|auto]. }
  assert (HR' : hr = true <->
                exists xPos, In xPos touches /\ right_touch screenWidth xPos).
  { rewrite HR. split; [intros [H|H]; [discriminate|exact H]|auto]. }
  clear HL HR. split.
  - intros Hg. destruct frameState; try reflexivity. contradiction.
  - intros ->. split.
    + intros Hg. destruct touchState; try reflexivity. contradiction.
    + intros ->. rewrite <- HL', <- HR'.
      destruct hl, hr; cbn; repeat split; try reflexivity;
        try (intros [H1 H2]; try discriminate; exfalso; apply H2; reflexivity);
        try (intros [[H1 H2]|[H1 H2]]; try discriminate;
             exfalso; first [apply H1; reflexivity|apply H2; reflexivity]).
Qed.
